(** * Streaming grid: batching, merge and grid adapter

    A shallow embedding of the streaming example of the repository:
    - [StreamingGridComponent]  (streaming-grid component example),
    - [StreamingService]        (streaming-service example),
    - [GridAdapterService]      (grid-adapter-service example).

    JavaScript objects are finite maps from property names to values,
    the [Map] of the merge step is an insertion-ordered association list
    compared with SameValueZero, calls on the grid API are recorded in a
    log, and the reactive operators ([retryWhen], [debounceTime],
    [bufferTime]) act on lists of events stamped with a logical time in
    milliseconds. *)

From stdpp Require Import gmap strings list fin_maps.
From Stdlib Require Import ZArith QArith Qcanon Lia Sorted.

Open Scope string_scope.
Open Scope list_scope.
Open Scope Z_scope.

(** ** JavaScript values *)

(** Finite numbers are canonical rationals (every finite double is one);
    NaN, the infinities, symbols and bigints are left out.  An object
    carries the reference that identifies it and its own properties. *)
#[warnings="-register-all"]
Inductive value : Type :=
  | VUndef
  | VNull
  | VBool (b : bool)
  | VNum (q : Qc)
  | VStr (s : string)
  | VObj (ref : nat) (fields : gmap string value).

(** A message payload and a table row are plain objects. *)
Abbreviation row := (gmap string value).

(** ToBoolean. *)
Definition truthy (v : value) : bool :=
  match v with
  | VUndef | VNull => false
  | VBool b => b
  | VNum q => negb (Qc_eq_bool q 0%Qc)
  | VStr s => negb (String.eqb s "")
  | VObj _ _ => true
  end.

(** [a || b]. *)
Definition js_or (a b : value) : value := if truthy a then a else b.

(** [o.p]: a missing property reads as [undefined]. *)
Definition prop (o : row) (p : string) : value := default VUndef (o !! p).

(** [{ ...a, ...b }]: the properties of [b] overwrite those of [a]. *)
Definition spread (a b : row) : row := b ∪ a.

(** SameValueZero, the key comparison of [Map]: primitives by value,
    objects by reference. *)
Definition sameValueZero (a b : value) : bool :=
  match a, b with
  | VUndef, VUndef => true
  | VNull, VNull => true
  | VBool x, VBool y => Bool.eqb x y
  | VNum x, VNum y => Qc_eq_bool x y
  | VStr x, VStr y => String.eqb x y
  | VObj r _, VObj r' _ => Nat.eqb r r'
  | _, _ => false
  end.

(** ** The JavaScript [Map]: insertion ordered, one entry per key *)

Module JsMap.

Definition t (V : Type) : Type := list (value * V).

Definition empty {V} : t V := [].

(** [m.set(k, v)]: an existing key keeps its place, a new key goes last. *)
Fixpoint set {V} (k : value) (v : V) (m : t V) : t V :=
  match m with
  | [] => [(k, v)]
  | (k', v') :: m' =>
      if sameValueZero k' k then (k', v) :: m' else (k', v') :: set k v m'
  end.

Fixpoint get {V} (k : value) (m : t V) : option V :=
  match m with
  | [] => None
  | (k', v') :: m' => if sameValueZero k' k then Some v' else get k m'
  end.

Definition has {V} (k : value) (m : t V) : bool :=
  match get k m with Some _ => true | None => false end.

(** [new Map(entries)]. *)
Definition of_entries {V} (es : list (value * V)) : t V :=
  fold_left (fun m e => set (fst e) (snd e) m) es empty.

(** [Array.from(m.values())]. *)
Definition values {V} (m : t V) : list V := map snd m.

Definition keys {V} (m : t V) : list value := map fst m.

End JsMap.

(** ** StreamingGridComponent: merge and apply *)

(** [update.id || update.key]. *)
Definition msgId (update : row) : value :=
  js_or (prop update "id") (prop update "key").

(** One step of the [forEach] of [mergeUpdates].  [clock n] is the value
    of [Date.now() + Math.random()] at its [n]-th evaluation. *)
Definition mergeStep (clock : nat -> Qc)
    (acc : JsMap.t row * nat) (update : row) : JsMap.t row * nat :=
  let '(updateMap, n) := acc in
  let id := msgId update in
  if truthy id
  then (JsMap.set id update updateMap, n)
  else (JsMap.set (VNum (clock n)) update updateMap, S n).

Definition mergeMap (clock : nat -> Qc) (updates : list row) : JsMap.t row :=
  fst (fold_left (mergeStep clock) updates (JsMap.empty, O)).

Definition mergeUpdates (clock : nat -> Qc) (updates : list row) : list row :=
  JsMap.values (mergeMap clock updates).

(** [new Map(currentData.map(item => [item.id || item.key, item]))]. *)
Definition tableMap (currentData : list row) : JsMap.t row :=
  JsMap.of_entries (map (fun item => (msgId item, item)) currentData).

(** One step of the [forEach] of [applyUpdatesToData]. *)
Definition applyStep (dataMap : JsMap.t row) (update : row) : JsMap.t row :=
  let id := msgId update in
  match JsMap.get id dataMap with
  | Some existing => JsMap.set id (spread existing update) dataMap
  | None => JsMap.set id update dataMap
  end.

Definition applyMap (currentData updates : list row) : JsMap.t row :=
  fold_left applyStep updates (tableMap currentData).

Definition applyUpdatesToData (currentData updates : list row) : list row :=
  JsMap.values (applyMap currentData updates).

(** ** The grid API and the calls made on it *)

Record RowNode : Type := mkRowNode { node_id : nat; node_data : row }.

(** The argument of [gridApi.applyTransaction]; a list that is not given
    is [None]. *)
Record RowDataTransaction : Type := mkTransaction {
  tx_add : option (list row);
  tx_update : option (list row);
  tx_remove : option (list row)
}.

Record FilterEntry : Type := mkFilterEntry {
  fe_filterType : string;
  fe_type : string;
  fe_filter : value
}.

Record CsvExportParams : Type := mkCsvParams {
  csv_fileName : string;
  csv_onlySelected : bool
}.

(** Every method of the grid API that the adapter invokes. *)
Inductive GridCall : Type :=
  | GetSelectedRows
  | GetSelectedNodes
  | SelectAll
  | DeselectAll
  | ForEachNode
  | SetSelected (node : RowNode) (selected : bool)
  | SetFilterModel (model : option (gmap string FilterEntry))
  | RefreshCells
  | SetRowData (rows : list row)
  | ApplyTransaction (tx : RowDataTransaction)
  | ExportDataAsCsv (params : CsvExportParams)
  | GetDisplayedRowCount
  | EnsureIndexVisible (index : Z) (position : string)
  | UpdateGridOptions.

(** A live grid, seen through the answers it gives to queries. *)
Record GridApi : Type := mkGridApi {
  api_selectedRows : list row;
  api_selectedNodes : list RowNode;
  api_nodes : list RowNode;
  api_displayedRowCount : Z
}.

(** The result of running a method: it returns a value or throws, and in
    both cases leaves the log of the grid calls it made. *)
Inductive outcome (A : Type) : Type :=
  | Returned (a : A) (calls : list GridCall)
  | Thrown (calls : list GridCall).
Arguments Returned {A} a calls.
Arguments Thrown {A} calls.

Definition calls_of {A} (o : outcome A) : list GridCall :=
  match o with Returned _ cs => cs | Thrown cs => cs end.

Definition result_of {A} (o : outcome A) : option A :=
  match o with Returned a _ => Some a | Thrown _ => None end.

#[export] Instance outcome_ret : MRet outcome := fun A a => Returned a [].

#[export] Instance outcome_bind : MBind outcome := fun A B f m =>
  match m with
  | Returned a cs =>
      match f a with
      | Returned b cs' => Returned b (cs ++ cs')
      | Thrown cs' => Thrown (cs ++ cs')
      end
  | Thrown cs => Thrown cs
  end.

(** [!gridApi]: a handle that is [null] or [undefined] is [None]. *)
Definition no_grid (gridApi : option GridApi) : bool :=
  match gridApi with None => true | Some _ => false end.

(** [gridApi.method(...)]: a member access on [null] or [undefined]
    throws a TypeError. *)
Definition on_grid {A} (gridApi : option GridApi)
    (method : GridApi -> A * list GridCall) : outcome A :=
  match gridApi with
  | Some api => let '(a, cs) := method api in Returned a cs
  | None => Thrown []
  end.

(** [s || fallback] on an optional string argument. *)
Definition str_or (s : option string) (fallback : string) : string :=
  match s with
  | Some x => if String.eqb x "" then fallback else x
  | None => fallback
  end.

(** ** GridAdapterService *)

Module GridAdapterService.

Record GridSelection : Type := mkSelection {
  selectedRows : list row;
  selectedNodes : list RowNode;
  selectedCount : nat
}.

Record GridFilter : Type := mkFilter {
  column : string;
  filterType : string;
  filterValue : value
}.

Definition getSelectedRows (gridApi : option GridApi) : outcome (list row) :=
  if no_grid gridApi then Returned [] []
  else on_grid gridApi (fun api => (api_selectedRows api, [GetSelectedRows])).

Definition getSelectedNodes (gridApi : option GridApi) : outcome (list RowNode) :=
  if no_grid gridApi then Returned [] []
  else on_grid gridApi (fun api => (api_selectedNodes api, [GetSelectedNodes])).

Definition getSelection (gridApi : option GridApi) : outcome GridSelection :=
  rows ← getSelectedRows gridApi;
  nodes ← getSelectedNodes gridApi;
  mret (mkSelection rows nodes (length rows)).

Definition selectAll (gridApi : option GridApi) : outcome unit :=
  if no_grid gridApi then Returned tt []
  else on_grid gridApi (fun _ => (tt, [SelectAll])).

Definition deselectAll (gridApi : option GridApi) : outcome unit :=
  if no_grid gridApi then Returned tt []
  else on_grid gridApi (fun _ => (tt, [DeselectAll])).

Definition selectRowsByCondition (gridApi : option GridApi)
    (condition : row -> bool) : outcome unit :=
  if no_grid gridApi then Returned tt []
  else on_grid gridApi (fun api =>
    (tt, ForEachNode ::
         flat_map (fun node =>
           if condition (node_data node) then [SetSelected node true] else [])
           (api_nodes api))).

Definition applyFilter (gridApi : option GridApi) (filter : GridFilter)
    : outcome unit :=
  if no_grid gridApi then Returned tt []
  else
    let filterModel : gmap string FilterEntry :=
      {[ column filter :=
           mkFilterEntry (filterType filter) "equals" (filterValue filter) ]} in
    on_grid gridApi (fun _ => (tt, [SetFilterModel (Some filterModel)])).

Definition clearFilters (gridApi : option GridApi) : outcome unit :=
  if no_grid gridApi then Returned tt []
  else on_grid gridApi (fun _ => (tt, [SetFilterModel None])).

Definition refreshData (gridApi : option GridApi) : outcome unit :=
  if no_grid gridApi then Returned tt []
  else on_grid gridApi (fun _ => (tt, [RefreshCells])).

Definition updateRowData (gridApi : option GridApi) (newData : list row)
    : outcome unit :=
  if no_grid gridApi then Returned tt []
  else on_grid gridApi (fun _ => (tt, [SetRowData newData])).

Definition addRows (gridApi : option GridApi) (newRows : list row)
    : outcome unit :=
  if no_grid gridApi then Returned tt []
  else on_grid gridApi (fun _ =>
    (tt, [ApplyTransaction (mkTransaction (Some newRows) None None)])).

Definition updateRows (gridApi : option GridApi) (updatedRows : list row)
    : outcome unit :=
  if no_grid gridApi then Returned tt []
  else on_grid gridApi (fun _ =>
    (tt, [ApplyTransaction (mkTransaction None (Some updatedRows) None)])).

Definition removeRows (gridApi : option GridApi) (rowsToRemove : list row)
    : outcome unit :=
  if no_grid gridApi then Returned tt []
  else on_grid gridApi (fun _ =>
    (tt, [ApplyTransaction (mkTransaction None None (Some rowsToRemove))])).

Definition exportToCsv (gridApi : option GridApi) (fileName : option string)
    : outcome unit :=
  if no_grid gridApi then Returned tt []
  else
    let params := mkCsvParams (str_or fileName "grid-export") false in
    on_grid gridApi (fun _ => (tt, [ExportDataAsCsv params])).

Definition exportSelectedToCsv (gridApi : option GridApi)
    (fileName : option string) : outcome unit :=
  if no_grid gridApi then Returned tt []
  else
    let params := mkCsvParams (str_or fileName "grid-selected-export") true in
    on_grid gridApi (fun _ => (tt, [ExportDataAsCsv params])).

Definition getVisibleRowCount (gridApi : option GridApi) : outcome Z :=
  if no_grid gridApi then Returned 0 []
  else on_grid gridApi (fun api =>
    (api_displayedRowCount api, [GetDisplayedRowCount])).

Definition scrollToRow (gridApi : option GridApi) (rowIndex : Z)
    : outcome unit :=
  if no_grid gridApi then Returned tt []
  else on_grid gridApi (fun _ => (tt, [EnsureIndexVisible rowIndex "middle"])).

End GridAdapterService.

(** ** StreamingGridComponent: state and handlers *)

(** The fields of the component that its handlers read or write:
    [gridApi] (unset until the grid is ready) and the current value of
    [rowData$]. *)
Record Component : Type := mkComponent {
  gridApi : option GridApi;
  rowData : list row
}.

Definition initialComponent : Component := mkComponent None [].

Definition processBatchUpdates (clock : nat -> Qc) (this : Component)
    (updates : list row) : outcome Component :=
  if no_grid (gridApi this) then Returned this []
  else
    let mergedUpdates := mergeUpdates clock updates in
    _ ← GridAdapterService.updateRows (gridApi this) mergedUpdates;
    let currentData := rowData this in
    let updatedData := applyUpdatesToData currentData mergedUpdates in
    mret (mkComponent (gridApi this) updatedData).

(** [updates.filter(u => u !== null)]; a queued [null] is [None]. *)
Definition dropNull (updates : list (option row)) : list row :=
  omap id updates.

(** The subscriber of [setupBatchUpdates], run on every array of
    updates that comes out of its pipe. *)
Definition onBatch (clock : nat -> Qc) (this : Component)
    (updates : list row) : outcome Component :=
  if (0 <? length updates)%nat
  then processBatchUpdates clock this updates
  else Returned this [].

Definition applyFilter (this : Component) (column : string) (v : value)
    : outcome Component :=
  if no_grid (gridApi this) then Returned this []
  else
    _ ← GridAdapterService.applyFilter (gridApi this)
          (GridAdapterService.mkFilter column "text" v);
    mret this.

Definition clearFilters (this : Component) : outcome Component :=
  if no_grid (gridApi this) then Returned this []
  else
    _ ← GridAdapterService.clearFilters (gridApi this);
    mret this.

Definition onGridReady (this : Component) (api : GridApi) : outcome Component :=
  Returned (mkComponent (Some api) (rowData this)) [UpdateGridOptions].

(** ** Streams in logical time *)

(** A stream is the list of its emissions in the order they occur, each
    with the time (in ms) at which it occurs. *)
Abbreviation timed A := (list (Z * A)).

Definition emissions {A} (s : timed A) : list A := map snd s.

(** The timer due at [due] has run out when a value arrives at [t]: it
    has when it was due earlier; a timer due at the very time of the
    arrival races with it, and [timerFirst t] tells whether the timer
    wins the race at [t]. *)
Definition timerExpired (timerFirst : Z -> bool) (due t : Z) : bool :=
  (due <? t) || ((due =? t) && timerFirst t).

(** [debounceTime(dueTime)]: every arrival replaces the pending value and
    restarts the timer; the pending value is emitted when the timer runs
    out.  [pending] is the value waiting and the time at which it is due.
    The source is read to its end while the subscription is alive, so
    the value pending at the end is emitted when due. *)
Fixpoint debounceFrom {A} (timerFirst : Z -> bool) (dueTime : Z)
    (pending : option (Z * A)) (source : timed A) : timed A :=
  match source with
  | [] => match pending with Some p => [p] | None => [] end
  | (t, v) :: rest =>
      match pending with
      | Some (due, v0) =>
          if timerExpired timerFirst due t
          then (due, v0)
                 :: debounceFrom timerFirst dueTime (Some (t + dueTime, v)) rest
          else debounceFrom timerFirst dueTime (Some (t + dueTime, v)) rest
      | None => debounceFrom timerFirst dueTime (Some (t + dueTime, v)) rest
      end
  end.

Definition debounceTime {A} (timerFirst : Z -> bool) (dueTime : Z)
    (source : timed A) : timed A :=
  debounceFrom timerFirst dueTime None source.

(** [bufferTime(span)], subscribed at time [t0]: the [k]-th buffer is
    emitted at [t0 + (k+1) * span] and holds the values that arrived
    since the previous one (a value arriving on a tick goes to the next
    buffer).  [ticks] is the number of ticks observed. *)
Definition windowOf (span t0 t : Z) : Z := (t - t0) / span.

Definition bufferAt {A} (span t0 : Z) (k : nat) (source : timed A) : list A :=
  emissions (List.filter (fun e => windowOf span t0 (fst e) =? Z.of_nat k) source).

Definition bufferTime {A} (span t0 : Z) (ticks : nat) (source : timed A)
    : list (list A) :=
  map (fun k => bufferAt span t0 k source) (seq 0 ticks).

(** ** StreamingService *)

Module StreamingService.

Record StreamMessage : Type := mkMessage {
  topic : string;
  payload : option row;
  timestamp : Z
}.

Record StreamConfig : Type := mkConfig {
  url : string;
  cfg_reconnectAttempts : option Z;
  cfg_reconnectDelay : option Z;
  cfg_bufferSize : option Z
}.

(** The r-socket client is opaque; only its presence matters. *)
Inductive RSocketClient : Type := Client (id : nat).

Record t : Type := mkService {
  connectionStatus : bool;
  reconnectAttempts : nat;
  maxReconnectAttempts : nat;
  config : option StreamConfig;
  rsocketClient : option RSocketClient
}.

(** The field initialisers of the class. *)
Definition initial : t := mkService false 0 5 None None.

(** What a subscriber of [connect(config)] and the timers observe. *)
Inductive ConnEvent : Type :=
  | Attempt (ok : bool)
  | Delay (ms : Z)
  | LogReconnect (attempt : nat)
  | Next (connected : bool)
  | Complete
  | Error.

(** [this.config.reconnectDelay || 1000]. *)
Definition reconnectDelay (cfg : StreamConfig) : Z :=
  match cfg_reconnectDelay cfg with
  | Some d => if d =? 0 then 1000 else d
  | None => 1000
  end.

(** The body of the observable: the [try] block on success, the
    [catch] block on failure.  [createRSocketClient] is the connection
    factory: [None] when it throws. *)
Definition attemptOnce (createRSocketClient : option RSocketClient) (this : t)
    : t * bool :=
  match createRSocketClient with
  | Some client =>
      (mkService true (reconnectAttempts this) (maxReconnectAttempts this)
         (config this) (Some client), true)
  | None =>
      (mkService false (reconnectAttempts this) (maxReconnectAttempts this)
         (config this) (rsocketClient this), false)
  end.

(** [retryWhen(errors => errors.pipe(delay(d), take(max), tap(...)))]:
    [budget] is what [take] still lets through.  An error is delayed,
    counted and logged, and the source is subscribed again; once
    [take] has let [max] errors through the notifier completes, and so
    does the result, without an error. *)
Fixpoint retryLoop (factory : nat -> option RSocketClient) (delayMs : Z)
    (budget attemptNo : nat) (this : t) : t * list ConnEvent :=
  let '(this1, ok) := attemptOnce (factory attemptNo) this in
  if ok then (this1, [Attempt true; Next true; Complete])
  else
    match budget with
    | O => (this1, [Attempt false; Complete])
    | S budget' =>
        let this2 :=
          mkService (connectionStatus this1) (S (reconnectAttempts this1))
            (maxReconnectAttempts this1) (config this1) (rsocketClient this1) in
        let '(this3, evs) :=
          retryLoop factory delayMs budget' (S attemptNo) this2 in
        (this3,
         Attempt false :: Delay delayMs
           :: LogReconnect (reconnectAttempts this2) :: evs)
    end.

(** [connect(config)] and the subscription to the observable it
    returns.  [delay(d)] waits [|d|]. *)
Definition connect (factory : nat -> option RSocketClient)
    (cfg : StreamConfig) (this : t) : t * list ConnEvent :=
  let this0 :=
    mkService (connectionStatus this) (reconnectAttempts this)
      (maxReconnectAttempts this) (Some cfg) (rsocketClient this) in
  retryLoop factory (Z.abs (reconnectDelay cfg)) (maxReconnectAttempts this0)
    0 this0.

Definition disconnect (this : t) : t :=
  mkService false 0 (maxReconnectAttempts this) (config this) None.

(** [createRSocketClient] as it stands in the example: it throws.  The
    functions above take the factory as an argument, so that a client
    creation that succeeds can be put in its place. *)
Definition createRSocketClient : nat -> option RSocketClient := fun _ => None.

(** A factory that throws on the first [failures] calls and then
    connects. *)
Definition failsThenConnects (failures : nat) : nat -> option RSocketClient :=
  fun n => if (n <? failures)%nat then None else Some (Client n).

(** [subscribeToTopic(topic)]: the payloads of the messages of that
    topic. *)
Definition subscribeToTopic (topicName : string)
    (messages : timed StreamMessage) : timed (option row) :=
  map (fun e => (fst e, payload (snd e)))
    (List.filter (fun e => String.eqb (topic (snd e)) topicName) messages).

Definition retryDelays (evs : list ConnEvent) : list Z :=
  omap (fun e => match e with Delay d => Some d | _ => None end) evs.

Definition attempts (evs : list ConnEvent) : nat :=
  length (List.filter (fun e => match e with Attempt _ => true | _ => false end) evs).

End StreamingService.

(** ** The pipeline of the component *)

(** [subscribeToStream]: what reaches [updateQueue$]. *)
Definition subscribeToStream (timerFirst : Z -> bool)
    (delivered : timed (option row)) : timed (option row) :=
  debounceTime timerFirst 50 delivered.

(** [setupBatchUpdates], constructed at [t0]: the pipe
    [bufferTime(100), map(updates => updates.filter(u => u !== null))];
    the arrays handed to the subscriber, one per tick. *)
Definition setupBatchUpdates (t0 : Z) (ticks : nat)
    (queue : timed (option row)) : list (list row) :=
  map dropNull (bufferTime 100 t0 ticks queue).

(** ** Vocabulary of the statements *)

(** The message or row is identified by [k]. *)
Definition idIs (k : value) (u : row) : bool := sameValueZero (msgId u) k.

(** The message carries an identifier: [if (id)] takes the first branch. *)
Definition identified (u : row) : Prop := truthy (msgId u) = true.

(** What [applyUpdatesToData] stores for an update, given what the map
    holds under its identifier. *)
Definition overlay (existing : option row) (update : row) : row :=
  match existing with
  | Some e => spread e update
  | None => update
  end.

(** A map whose entries are filed under the identifier of their value. *)
Fixpoint keyed (m : JsMap.t row) : Prop :=
  match m with
  | [] => True
  | (k, v) :: m' =>
      sameValueZero k (msgId v) = true /\ JsMap.get k m' = None /\ keyed m'
  end.

(** The rows that a log of grid calls adds, updates and removes. *)
Definition addedRows (calls : list GridCall) : list row :=
  flat_map (fun c =>
    match c with ApplyTransaction tx => default [] (tx_add tx) | _ => [] end) calls.

Definition updatedRows (calls : list GridCall) : list row :=
  flat_map (fun c =>
    match c with ApplyTransaction tx => default [] (tx_update tx) | _ => [] end) calls.

Definition removedRows (calls : list GridCall) : list row :=
  flat_map (fun c =>
    match c with ApplyTransaction tx => default [] (tx_remove tx) | _ => [] end) calls.

Definition transactions (calls : list GridCall) : nat :=
  length (List.filter (fun c =>
    match c with ApplyTransaction _ => true | _ => false end) calls).

(** The time of the arrival that follows each arrival, if any. *)
Definition nextArrivals {A} (s : timed A) : list (option Z) :=
  map (fun e => Some (fst e)) (tail s) ++ [None].

(** What a debounce lets through, said without a timer: the arrivals
    that are the last one or that the next arrival follows after more
    than [dueTime] (or after exactly [dueTime], when the timer wins the
    race), each moved to [dueTime] after it came. *)
Definition settled {A} (timerFirst : Z -> bool) (dueTime : Z) (s : timed A)
    : timed A :=
  map (fun p => (fst (fst p) + dueTime, snd (fst p)))
    (List.filter
       (fun p => match snd p with
                 | Some t' => timerExpired timerFirst (fst (fst p) + dueTime) t'
                 | None => true
                 end)
       (zip s (nextArrivals s))).

(** The emissions of a stream come in the order of their times. *)
Definition inTimeOrder {A} (s : timed A) : Prop :=
  StronglySorted (fun a b => fst a <= fst b) s.

(** ** Sample data *)

Definition num (z : Z) : value := VNum (Q2Qc (inject_Z z)).

(** Two readings of [Date.now() + Math.random()] a quarter and three
    quarters of a millisecond into the same millisecond, and so on. *)
Definition sampleClock : nat -> Qc :=
  fun n => Q2Qc (Qmake (1700000000000 * 4 + 1 + 2 * Z.of_nat n) 4).

Definition sampleGrid : GridApi := mkGridApi [] [] [] 0.

Definition gridReady (rows : list row) : Component :=
  mkComponent (Some sampleGrid) rows.

(** [{key:'1', price:10}] and [{key:'1', price:12}]. *)
Definition price10 : row := {[ "key" := VStr "1"; "price" := num 10 ]}.
Definition price12 : row := {[ "key" := VStr "1"; "price" := num 12 ]}.

(** [{key:0, price:10, qty:5}] and [{key:0, price:12}]. *)
Definition zero10 : row := {[ "key" := num 0; "price" := num 10; "qty" := num 5 ]}.
Definition zero12 : row := {[ "key" := num 0; "price" := num 12 ]}.

(** [{key:'2', op:'update', fields:{price:10}}], [{key:'2', op:'remove'}]
    and a resident row [{key:'2', price:7}]. *)
Definition update2 : row :=
  {[ "key" := VStr "2"; "op" := VStr "update";
     "fields" := VObj 1 {[ "price" := num 10 ]} ]}.
Definition remove2 : row := {[ "key" := VStr "2"; "op" := VStr "remove" ]}.
Definition resident2 : row := {[ "key" := VStr "2"; "price" := num 7 ]}.

(** [{id:1, name:'a', pos:{x:1, y:2}}] and the update [{id:1, pos:{x:5}}]. *)
Definition nested1 : row :=
  {[ "id" := num 1; "name" := VStr "a";
     "pos" := VObj 2 {[ "x" := num 1; "y" := num 2 ]} ]}.
Definition nestedUpdate1 : row :=
  {[ "id" := num 1; "pos" := VObj 3 {[ "x" := num 5 ]} ]}.

(** A configuration with a base delay of 100 ms. *)
Definition config100 : StreamingService.StreamConfig :=
  StreamingService.mkConfig "ws://your-kafka-stream-url" (Some 5) (Some 100) None.

(** ** More of the component *)

(** No two rows of the list have the same identifier. *)
Fixpoint distinctIds (rows : list row) : Prop :=
  match rows with
  | [] => True
  | r :: rest =>
      Forall (fun r' => idIs (msgId r) r' = false) rest /\ distinctIds rest
  end.

(** The subscriber of [setupBatchUpdates] run on the arrays of
    successive ticks; [clock tick] is the clock during that tick. *)
Fixpoint runBatches (clock : nat -> nat -> Qc) (tick : nat) (this : Component)
    (batches : list (list row)) : outcome Component :=
  match batches with
  | [] => mret this
  | updates :: rest =>
      this' ← onBatch (clock tick) this updates;
      runBatches clock (S tick) this' rest
  end.

(** [refreshGrid] and [exportSelected] of the component. *)
Definition refreshGrid (this : Component) : outcome Component :=
  if no_grid (gridApi this) then Returned this []
  else
    _ ← GridAdapterService.refreshData (gridApi this);
    mret this.

Definition exportSelected (this : Component) : outcome Component :=
  if no_grid (gridApi this) then Returned this []
  else
    _ ← GridAdapterService.exportSelectedToCsv (gridApi this)
          (Some "streaming-data");
    mret this.

(** ** More of the adapter: column definitions *)

(** A column definition is a plain object; a function among its
    properties (a formatter, a renderer) is an object like any other. *)
Abbreviation ColDef := (gmap string value).

(** [getDefaultGridOptions().defaultColDef]. *)
Definition defaultColDef : ColDef :=
  {[ "resizable" := VBool true; "sortable" := VBool true;
     "filter" := VBool true; "floatingFilter" := VBool true;
     "enableRowGroup" := VBool false; "enablePivot" := VBool false;
     "enableValue" := VBool false ]}.

(** [columnDefs.map(colDef => ({ ...defaultColDef, ...colDef }))]. *)
Definition applyColumnDefaults (columnDefs : list ColDef) : list ColDef :=
  map (fun colDef => spread defaultColDef colDef) columnDefs.

(** [{ field, headerName, ...options }]; options that are not given
    spread to nothing. *)
Definition createColumnDef (field headerName : string)
    (options : option ColDef) : ColDef :=
  spread {[ "field" := VStr field; "headerName" := VStr headerName ]}
    (default ∅ options).

(** [handleSelectionChanged(event)]: the selection of [event.api]. *)
Definition handleSelectionChanged (eventApi : option GridApi)
    : outcome GridAdapterService.GridSelection :=
  GridAdapterService.getSelection eventApi.

(** ** More of the streaming service *)

(** [subscribeToTopics(topics)]: the messages whose topic is listed. *)
Definition subscribeToTopics (topics : list string)
    (messages : timed StreamingService.StreamMessage)
    : timed StreamingService.StreamMessage :=
  List.filter
    (fun e => existsb (String.eqb (StreamingService.topic (snd e))) topics)
    messages.

Definition isConnected (this : StreamingService.t) : bool :=
  StreamingService.connectionStatus this.

(** What [rsocketClient.requestResponse] does with a request: it
    answers, it fails, or the call itself throws. *)
Inductive Response : Type :=
  | Answers
  | Fails (error : string)
  | Throws (error : string).

(** What the subscriber of [sendMessage] and the client observe. *)
Inductive SendEvent : Type :=
  | Requested (topic : string) (payload : value)
  | SendNext (sent : bool)
  | SendComplete
  | SendError (error : string).

(** [sendMessage(topic, payload)] and the subscription to the observable
    it returns.  A call on a client that is [null] throws a TypeError,
    which the [catch] hands to the subscriber. *)
Definition sendMessage (respond : Response) (this : StreamingService.t)
    (topic : string) (payload : value) : list SendEvent :=
  if negb (StreamingService.connectionStatus this)
  then [SendError "Not connected to stream"]
  else
    match StreamingService.rsocketClient this with
    | None => [SendError "TypeError"]
    | Some _ =>
        match respond with
        | Answers => [Requested topic payload; SendNext true; SendComplete]
        | Fails error => [Requested topic payload; SendError error]
        | Throws error => [SendError error]
        end
    end.

(** The calls a user of the service makes. *)
Inductive ServiceCall : Type :=
  | CallConnect (factory : nat -> option StreamingService.RSocketClient)
      (cfg : StreamingService.StreamConfig)
  | CallDisconnect.

Definition serviceStep (this : StreamingService.t) (c : ServiceCall)
    : StreamingService.t :=
  match c with
  | CallConnect factory cfg => fst (StreamingService.connect factory cfg this)
  | CallDisconnect => StreamingService.disconnect this
  end.

Definition serviceAfter (calls : list ServiceCall) : StreamingService.t :=
  fold_left serviceStep calls StreamingService.initial.

(** The message that [handleStreamMessage] builds. *)
Record BuiltMessage : Type := mkBuilt {
  built_topic : value;
  built_payload : value;
  built_timestamp : Z;
  built_partition : value;
  built_offset : value
}.

(** [v.p] on any value: a TypeError ([None]) on [null] and [undefined],
    the property on an object, [undefined] on the other primitives (none
    of which has a property of the names read here). *)
Definition member (v : value) (p : string) : option value :=
  match v with
  | VUndef | VNull => None
  | VObj _ fields => Some (prop fields p)
  | _ => Some VUndef
  end.

(** [handleStreamMessage(payload)] at time [now]: the message pushed on
    [streamMessages$], or nothing when building it throws (the [catch]
    only logs). *)
Definition handleStreamMessage (now : Z) (payload : value)
    : option BuiltMessage :=
  topic ← member payload "topic";
  data ← member payload "data";
  partition ← member payload "partition";
  offset ← member payload "offset";
  Some (mkBuilt (js_or topic (VStr "unknown")) (js_or data payload) now
          partition offset).

(** ** The data table organism: the search box *)

(** [distinctUntilChanged()]: a value equal ([===]) to the one emitted
    last is dropped.  On the values modelled [===] is [sameValueZero]. *)
Fixpoint distinctFrom (previous : option value) (source : timed value)
    : timed value :=
  match source with
  | [] => []
  | (t, v) :: rest =>
      match previous with
      | Some p =>
          if sameValueZero p v then distinctFrom previous rest
          else (t, v) :: distinctFrom (Some v) rest
      | None => (t, v) :: distinctFrom (Some v) rest
      end
  end.

Definition distinctUntilChanged (source : timed value) : timed value :=
  distinctFrom None source.

(** The pipe of [ngOnInit] on the changes of the query:
    [debounceTime(300), distinctUntilChanged()]; what [searchChanged]
    emits. *)
Definition searchChanged (timerFirst : Z -> bool)
    (valueChanges : timed value) : timed value :=
  distinctUntilChanged (debounceTime timerFirst 300 valueChanges).

(** No two neighbouring values are equal. *)
Fixpoint noRepeat (vs : list value) : Prop :=
  match vs with
  | v :: (w :: _) as rest => sameValueZero v w = false /\ noRepeat rest
  | _ => True
  end.

(** Every value comes more than [gap] after the one before. *)
Fixpoint spaced (gap : Z) (s : list Z) : Prop :=
  match s with
  | t :: (t' :: _) as rest => t + gap < t' /\ spaced gap rest
  | _ => True
  end.

(** Every value but the last is followed within less than [gap]. *)
Fixpoint burst (gap : Z) (s : list Z) : Prop :=
  match s with
  | t :: (t' :: _) as rest => t' < t + gap /\ burst gap rest
  | _ => True
  end.

(** ** Key comparison is an equivalence *)

Lemma Qc_eq_bool_true_iff (x y : Qc) : Qc_eq_bool x y = true <-> x = y.
Proof.
  unfold Qc_eq_bool. destruct (Qc_eq_dec x y); split; congruence.
Qed.

Lemma sameValueZero_refl (a : value) : sameValueZero a a = true.
Proof.
  destruct a; simpl; try reflexivity.
  - destruct b; reflexivity.
  - apply Qc_eq_bool_true_iff; reflexivity.
  - apply String.eqb_refl.
  - apply Nat.eqb_refl.
Qed.

Lemma sameValueZero_sym (a b : value) : sameValueZero a b = sameValueZero b a.
Proof.
  destruct a, b; simpl; try reflexivity.
  - destruct b0, b; reflexivity.
  - destruct (Qc_eq_bool q q0) eqn:E1, (Qc_eq_bool q0 q) eqn:E2; try reflexivity.
    + apply Qc_eq_bool_true_iff in E1. subst.
      rewrite (proj2 (Qc_eq_bool_true_iff q0 q0) eq_refl) in E2. discriminate.
    + apply Qc_eq_bool_true_iff in E2. subst.
      rewrite (proj2 (Qc_eq_bool_true_iff q q) eq_refl) in E1. discriminate.
  - apply String.eqb_sym.
  - apply Nat.eqb_sym.
Qed.

Lemma sameValueZero_trans (a b c : value) :
  sameValueZero a b = true -> sameValueZero b c = true -> sameValueZero a c = true.
Proof.
  destruct a, b; simpl; try discriminate; destruct c; simpl; try discriminate;
    try reflexivity.
  - destruct b0, b, b1; simpl; congruence.
  - rewrite !Qc_eq_bool_true_iff. congruence.
  - rewrite !String.eqb_eq. congruence.
  - rewrite !Nat.eqb_eq. congruence.
Qed.

(** Replacing the left or the right key by an equal one does not change
    the outcome of a comparison. *)
Lemma sameValueZero_congr_l (a b c : value) :
  sameValueZero a b = true -> sameValueZero a c = sameValueZero b c.
Proof.
  intros Hab.
  destruct (sameValueZero b c) eqn:Hbc.
  - eapply sameValueZero_trans; eassumption.
  - destruct (sameValueZero a c) eqn:Hac; [|reflexivity].
    rewrite <- Hbc. symmetry.
    eapply sameValueZero_trans; [|exact Hac].
    rewrite sameValueZero_sym. exact Hab.
Qed.

Lemma sameValueZero_congr_r (a b c : value) :
  sameValueZero a b = true -> sameValueZero c a = sameValueZero c b.
Proof.
  intros Hab. rewrite (sameValueZero_sym c a), (sameValueZero_sym c b).
  apply sameValueZero_congr_l. exact Hab.
Qed.

(** Equal keys are both truthy or both falsy. *)
Lemma truthy_sameValueZero (a b : value) :
  sameValueZero a b = true -> truthy a = truthy b.
Proof.
  destruct a, b; simpl; try discriminate; try reflexivity.
  - destruct b0, b; simpl; congruence.
  - rewrite Qc_eq_bool_true_iff. congruence.
  - rewrite String.eqb_eq. congruence.
Qed.

(** ** Laws of the [Map] *)

Module JsMapFacts.
Import JsMap.

Lemma get_set {V} (k k' : value) (v : V) (m : t V) :
  get k' (set k v m) = if sameValueZero k k' then Some v else get k' m.
Proof.
  induction m as [|[k0 v0] m IH]; simpl.
  - reflexivity.
  - destruct (sameValueZero k0 k) eqn:E0; simpl.
    + rewrite (sameValueZero_congr_l _ _ k' E0).
      destruct (sameValueZero k k'); reflexivity.
    + rewrite IH.
      destruct (sameValueZero k0 k') eqn:E1; [|reflexivity].
      destruct (sameValueZero k k') eqn:E2; [|reflexivity].
      rewrite sameValueZero_sym in E2.
      rewrite (sameValueZero_trans _ _ _ E1 E2) in E0. discriminate.
Qed.

Lemma get_set_same {V} (k : value) (v : V) (m : t V) :
  get k (set k v m) = Some v.
Proof. rewrite get_set, sameValueZero_refl. reflexivity. Qed.

Lemma get_congr {V} (k k' : value) (m : t V) :
  sameValueZero k k' = true -> get k m = get k' m.
Proof.
  intros E. induction m as [|[k0 v0] m IH]; simpl; [reflexivity|].
  rewrite (sameValueZero_congr_r _ _ k0 E), IH. reflexivity.
Qed.

(** A key that is in the map stays in it, whatever is set. *)
Lemma has_set_mono {V} (k k' : value) (v : V) (m : t V) :
  has k' m = true -> has k' (set k v m) = true.
Proof.
  unfold has. rewrite get_set.
  destruct (sameValueZero k k'); [reflexivity|trivial].
Qed.

Lemma get_Some_In {V} (k : value) (v : V) (m : t V) :
  get k m = Some v -> In v (values m).
Proof.
  induction m as [|[k0 v0] m IH]; simpl; [discriminate|].
  destruct (sameValueZero k0 k).
  - intros [= ->]. left; reflexivity.
  - intros H. right. apply IH, H.
Qed.

Lemma set_fresh {V} (k : value) (v : V) (m : t V) :
  get k m = None -> set k v m = m ++ [(k, v)].
Proof.
  induction m as [|[k0 v0] m IH]; simpl; [reflexivity|].
  destruct (sameValueZero k0 k); [discriminate|].
  intros H. rewrite (IH H). reflexivity.
Qed.

End JsMapFacts.

(** ** The merge step *)

Section Merge.
Import JsMap JsMapFacts.
Variable clock : nat -> Qc.

(** On messages that all carry an identifier the clock is never read. *)
Lemma merge_identified (us : list row) (m : JsMap.t row) (n : nat) :
  Forall identified us ->
  fold_left (mergeStep clock) us (m, n)
  = (fold_left (fun acc u => set (msgId u) u acc) us m, n).
Proof.
  intros H. revert m. induction H as [|u us Hu _ IH]; intros m; simpl.
  - reflexivity.
  - unfold identified in Hu. rewrite Hu. apply IH.
Qed.

Lemma get_fold_set (k : value) (us : list row) (m : JsMap.t row) :
  get k (fold_left (fun acc u => set (msgId u) u acc) us m)
  = match last (List.filter (idIs k) us) with
    | Some u => Some u
    | None => get k m
    end.
Proof.
  revert m. induction us as [|u us IH]; intros m; simpl.
  - reflexivity.
  - rewrite IH, get_set. unfold idIs at 2.
    destruct (sameValueZero (msgId u) k); simpl.
    + destruct (List.filter (idIs k) us) as [|x l]; simpl; [reflexivity|].
      destruct (last (x :: l)) eqn:E; [reflexivity|].
      apply last_None in E. discriminate.
    + reflexivity.
Qed.

Lemma keyed_set (u : row) (m : JsMap.t row) :
  keyed m -> keyed (set (msgId u) u m).
Proof.
  induction m as [|[k0 v0] m IH]; simpl.
  - intros _. split; [apply sameValueZero_refl|split; trivial].
  - intros (Hk & Hfresh & Hm).
    destruct (sameValueZero k0 (msgId u)) eqn:E; simpl.
    + split; [exact E|split; assumption].
    + split; [exact Hk|]. split; [|apply IH, Hm].
      rewrite get_set, sameValueZero_sym, E. exact Hfresh.
Qed.

Lemma keyed_fold_set (us : list row) (m : JsMap.t row) :
  keyed m -> keyed (fold_left (fun acc u => set (msgId u) u acc) us m).
Proof.
  revert m. induction us as [|u us IH]; intros m Hm; simpl; [exact Hm|].
  apply IH, keyed_set, Hm.
Qed.

(** In a keyed map the values identified by [k] are the entry of [k]. *)
Lemma filter_values_keyed (k : value) (m : JsMap.t row) :
  keyed m ->
  List.filter (idIs k) (values m)
  = match get k m with Some v => [v] | None => [] end.
Proof.
  induction m as [|[k0 v0] m IH]; simpl; [reflexivity|].
  intros (Hk & Hfresh & Hm). unfold idIs at 1.
  rewrite <- (sameValueZero_congr_l _ _ k Hk).
  destruct (sameValueZero k0 k) eqn:E.
  - rewrite (IH Hm), <- (get_congr _ _ m E), Hfresh. reflexivity.
  - apply IH, Hm.
Qed.

Lemma mergeMap_identified (us : list row) :
  Forall identified us ->
  mergeMap clock us = fold_left (fun acc u => set (msgId u) u acc) us empty.
Proof.
  intros H. unfold mergeMap. rewrite (merge_identified us empty O H).
  reflexivity.
Qed.

(** Per key, the merge keeps the message that arrived last. *)
Lemma mergeUpdates_last_per_key (k : value) (us : list row) :
  Forall identified us ->
  List.filter (idIs k) (mergeUpdates clock us)
  = match last (List.filter (idIs k) us) with Some u => [u] | None => [] end.
Proof.
  intros H. unfold mergeUpdates. rewrite (mergeMap_identified us H).
  rewrite filter_values_keyed by (apply keyed_fold_set; exact I).
  rewrite get_fold_set. simpl.
  destruct (last (List.filter (idIs k) us)); reflexivity.
Qed.

(** A window of messages for one key merges to its last message. *)
Lemma mergeUpdates_one_key (k : value) (earlier : list row) (lastMsg : row) :
  truthy k = true ->
  Forall (fun u => idIs k u = true) (earlier ++ [lastMsg]) ->
  mergeUpdates clock (earlier ++ [lastMsg]) = [lastMsg].
Proof.
  intros Hk Hall.
  assert (Hid : Forall identified (earlier ++ [lastMsg])).
  { eapply Forall_impl; [exact Hall|]. intros u Hu. unfold identified.
    rewrite (truthy_sameValueZero _ _ Hu). exact Hk. }
  unfold mergeUpdates. rewrite (mergeMap_identified _ Hid).
  assert (Hgen : forall (us : list row) (w : row) (k0 : value) (v : row),
    sameValueZero k0 k = true ->
    Forall (fun u => idIs k u = true) (us ++ [w]) ->
    fold_left (fun acc u => set (msgId u) u acc) (us ++ [w]) [(k0, v)]
    = [(k0, w)]).
  { induction us as [|u us IH]; intros w k0 v Hk0 Hus;
      inversion Hus as [|? ? Hu Hus']; subst; unfold idIs in Hu.
    - simpl.
      rewrite (sameValueZero_congr_l _ _ _ Hk0), sameValueZero_sym, Hu.
      reflexivity.
    - simpl app. simpl fold_left.
      rewrite (sameValueZero_congr_l _ _ _ Hk0), sameValueZero_sym, Hu.
      apply IH; assumption. }
  destruct earlier as [|u0 rest]; simpl app.
  - reflexivity.
  - inversion Hall as [|? ? Hu0 Hrest]; subst. simpl fold_left.
    rewrite (Hgen rest lastMsg (msgId u0) u0 Hu0 Hrest).
    reflexivity.
Qed.

End Merge.

(** ** Applying the merged updates *)

Section Apply.
Import JsMap JsMapFacts.

Lemma get_applyStep (k : value) (d : JsMap.t row) (u : row) :
  get k (applyStep d u)
  = if idIs k u then Some (overlay (get k d) u) else get k d.
Proof.
  unfold applyStep, idIs.
  destruct (sameValueZero (msgId u) k) eqn:E.
  - rewrite <- (get_congr _ _ d E).
    destruct (get (msgId u) d); rewrite get_set, E; reflexivity.
  - destruct (get (msgId u) d); rewrite get_set, E; reflexivity.
Qed.

(** The entry of [k] after the whole [forEach]: the updates identified
    by [k], laid over the entry one after the other. *)
Lemma get_fold_applyStep (k : value) (us : list row) (d : JsMap.t row) :
  get k (fold_left applyStep us d)
  = fold_left (fun o u => Some (overlay o u)) (List.filter (idIs k) us) (get k d).
Proof.
  revert d. induction us as [|u us IH]; intros d; simpl; [reflexivity|].
  rewrite IH, get_applyStep.
  destruct (idIs k u); reflexivity.
Qed.

(** No update takes a key out of the map. *)
Lemma has_fold_applyStep (k : value) (us : list row) (d : JsMap.t row) :
  has k d = true -> has k (fold_left applyStep us d) = true.
Proof.
  revert d. induction us as [|u us IH]; intros d H; simpl; [exact H|].
  apply IH. unfold has in *. rewrite get_applyStep.
  destruct (idIs k u); [reflexivity|exact H].
Qed.

Lemma spread_lookup (existing update : row) (p : string) :
  spread existing update !! p
  = match update !! p with Some v => Some v | None => existing !! p end.
Proof.
  unfold spread. rewrite lookup_union.
  destruct (update !! p), (existing !! p); reflexivity.
Qed.

End Apply.

(** ** The reconciliation claims *)

Lemma processBatchUpdates_ready (clock : nat -> Qc) (this : Component)
    (updates : list row) :
  no_grid (gridApi this) = false ->
  processBatchUpdates clock this updates
  = Returned
      (mkComponent (gridApi this)
         (applyUpdatesToData (rowData this) (mergeUpdates clock updates)))
      [ApplyTransaction
         (mkTransaction None (Some (mergeUpdates clock updates)) None)].
Proof.
  intros Hgrid. unfold processBatchUpdates. rewrite Hgrid.
  unfold GridAdapterService.updateRows. rewrite Hgrid.
  destruct (gridApi this) as [api|]; [reflexivity|discriminate].
Qed.

(** The other arrival order: the removal first and the update second
    leaves the update as the merged message. *)
Example arrival_order_decides :
  mergeUpdates sampleClock [update2; remove2] = [remove2] /\
  mergeUpdates sampleClock [remove2; update2] = [update2].
Proof. split; reflexivity. Qed.

(** The update [{id:1, pos:{x:5}}] on the row
    [{id:1, name:'a', pos:{x:1, y:2}}]: [pos] is replaced whole and
    [name] is kept. *)
Example nested_field_is_replaced :
  JsMap.get (num 1) (applyMap [nested1] [nestedUpdate1])
  = Some (spread nested1 nestedUpdate1) /\
  spread nested1 nestedUpdate1 !! "pos" = Some (VObj 3 {[ "x" := num 5 ]}) /\
  spread nested1 nestedUpdate1 !! "name" = Some (VStr "a") /\
  spread nested1 nestedUpdate1 !! "id" = Some (num 1).
Proof.
  split; [unfold applyMap; rewrite get_fold_applyStep; reflexivity|].
  rewrite !spread_lookup. repeat split; reflexivity.
Qed.

(** ** Flush cycles and the grid *)

Lemma bufferAt_empty {A} (span t0 : Z) (k : nat) (queue : timed A) :
  (forall e, In e queue -> windowOf span t0 (fst e) <> Z.of_nat k) ->
  bufferAt span t0 k queue = [].
Proof.
  intros Hnone. unfold bufferAt, emissions.
  induction queue as [|e queue IH]; simpl; [reflexivity|].
  destruct (windowOf span t0 (fst e) =? Z.of_nat k) eqn:E.
  - apply Z.eqb_eq in E. exfalso. apply (Hnone e); [left; reflexivity|exact E].
  - apply IH. intros e' He'. apply Hnone. right. exact He'.
Qed.

Lemma setupBatchUpdates_lookup (t0 : Z) (ticks k : nat)
    (queue : timed (option row)) (updates : list row) :
  setupBatchUpdates t0 ticks queue !! k = Some updates ->
  updates = dropNull (bufferAt 100 t0 k queue).
Proof.
  unfold setupBatchUpdates, bufferTime. rewrite !list_lookup_fmap.
  destruct (seq 0 ticks !! k) as [j|] eqn:E; simpl; [|discriminate].
  apply lookup_seq in E. destruct E as [-> _]. intros [= <-]. reflexivity.
Qed.

(** C6.  A flush window in which no message arrived hands an empty
    array to the subscriber, which returns at once: the component is
    unchanged (no merge, no new table) and no call is made on the grid. *)
Theorem empty_window_is_skipped
    (clock : nat -> Qc) (this : Component) (t0 : Z) (ticks k : nat)
    (queue : timed (option row)) (updates : list row) :
  setupBatchUpdates t0 ticks queue !! k = Some updates ->
  (forall e, In e queue -> windowOf 100 t0 (fst e) <> Z.of_nat k) ->
  updates = [] /\ onBatch clock this updates = Returned this [].
Proof.
  intros Hk Hnone. apply setupBatchUpdates_lookup in Hk.
  rewrite (bufferAt_empty 100 t0 k queue Hnone) in Hk. subst updates.
  split; reflexivity.
Qed.

Lemma empty_window_is_skipped_witness :
  onBatch sampleClock (gridReady [resident2]) []
  = Returned (gridReady [resident2]) [].
Proof.
  destruct (empty_window_is_skipped sampleClock (gridReady [resident2]) 0 3 1
              [(10, Some price10); (210, Some price12)] []) as [_ H].
  - reflexivity.
  - intros e [<-|[<-|[]]]; vm_compute; discriminate.
  - exact H.
Defined.

(** C7 (as the code has it).  A flush cycle makes at most one call on the
    grid, whatever the number of messages: none when the buffer has no
    message or the grid is not ready, and otherwise exactly one
    [applyTransaction] whose update list is the merged messages and
    which has neither an add list nor a remove list.  It never throws. *)
Theorem one_update_transaction_per_flush
    (clock : nat -> Qc) (this : Component) (updates : list row) :
  let out := onBatch clock this updates in
  result_of out <> None /\
  calls_of out
  = (if no_grid (gridApi this) || (length updates =? 0)%nat
     then []
     else [ApplyTransaction
             (mkTransaction None (Some (mergeUpdates clock updates)) None)]) /\
  (transactions (calls_of out) <= 1)%nat.
Proof.
  intros out. subst out. unfold onBatch.
  destruct updates as [|u us].
  - simpl. rewrite orb_true_r. split; [discriminate|]. split; [reflexivity|].
    unfold transactions. simpl. lia.
  - replace (0 <? length (u :: us))%nat with true by reflexivity.
    replace (length (u :: us) =? 0)%nat with false by reflexivity.
    rewrite orb_false_r.
    destruct (no_grid (gridApi this)) eqn:G.
    + unfold processBatchUpdates. rewrite G. simpl.
      split; [discriminate|]. split; [reflexivity|].
      unfold transactions. simpl. lia.
    + rewrite (processBatchUpdates_ready clock this (u :: us) G). simpl.
      split; [discriminate|]. split; [reflexivity|].
      unfold transactions. simpl. lia.
Qed.

(** C7 (as stated) fails: a message for a key that the table does not
    have is a new row, yet the flush hands it to the grid as an update;
    nothing is ever put in an add list. *)
Lemma added_rows_use_addRows_counterexample :
  JsMap.has (VStr "1") (tableMap (rowData (gridReady []))) = false /\
  ~ (forall this' calls,
       onBatch sampleClock (gridReady []) [price12] = Returned this' calls ->
       In price12 (addedRows calls)).
Proof.
  split; [reflexivity|]. intros H.
  specialize (H _ _ (processBatchUpdates_ready sampleClock (gridReady [])
                       [price12] eq_refl)).
  exact H.
Qed.

(** C9.  Applying a filter and clearing the filters return the component
    as it was, so the rows it holds are the same rows, and the only
    calls they make on the grid are [setFilterModel]; the adapter itself
    does the same for every filter. *)
Theorem filters_leave_the_rows
    (this : Component) (columnName : string) (v : value)
    (g : option GridApi) (f : GridAdapterService.GridFilter) :
  let isFilterCall c := match c with SetFilterModel _ => True | _ => False end in
  (exists calls, applyFilter this columnName v = Returned this calls /\
                 Forall isFilterCall calls) /\
  (exists calls, clearFilters this = Returned this calls /\
                 Forall isFilterCall calls) /\
  rowData (default this (result_of (applyFilter this columnName v)))
  = rowData this /\
  rowData (default this (result_of (clearFilters this))) = rowData this /\
  Forall isFilterCall (calls_of (GridAdapterService.applyFilter g f)) /\
  Forall isFilterCall (calls_of (GridAdapterService.clearFilters g)).
Proof.
  intros isFilterCall.
  unfold applyFilter, clearFilters, GridAdapterService.applyFilter,
    GridAdapterService.clearFilters.
  destruct this as [[api|] rows]; destruct g as [api'|]; simpl;
    repeat split; eauto;
    try (eexists; split; [reflexivity|]); repeat constructor.
Qed.

(** C10.  Without a grid (the handle is null or undefined) every
    operation of the adapter that takes the handle returns without
    throwing and without a call on the grid: the queries return the
    empty list, the empty selection and zero, the others do nothing. *)
Theorem adapter_total_without_grid
    (cond : row -> bool) (f : GridAdapterService.GridFilter)
    (rows : list row) (fileName : option string) (rowIndex : Z) :
  GridAdapterService.getSelectedRows None = Returned [] [] /\
  GridAdapterService.getSelectedNodes None = Returned [] [] /\
  GridAdapterService.getSelection None
  = Returned (GridAdapterService.mkSelection [] [] 0) [] /\
  GridAdapterService.getVisibleRowCount None = Returned 0 [] /\
  GridAdapterService.selectAll None = Returned tt [] /\
  GridAdapterService.deselectAll None = Returned tt [] /\
  GridAdapterService.selectRowsByCondition None cond = Returned tt [] /\
  GridAdapterService.applyFilter None f = Returned tt [] /\
  GridAdapterService.clearFilters None = Returned tt [] /\
  GridAdapterService.refreshData None = Returned tt [] /\
  GridAdapterService.updateRowData None rows = Returned tt [] /\
  GridAdapterService.addRows None rows = Returned tt [] /\
  GridAdapterService.updateRows None rows = Returned tt [] /\
  GridAdapterService.removeRows None rows = Returned tt [] /\
  GridAdapterService.exportToCsv None fileName = Returned tt [] /\
  GridAdapterService.exportSelectedToCsv None fileName = Returned tt [] /\
  GridAdapterService.scrollToRow None rowIndex = Returned tt [].
Proof.
  repeat split; reflexivity.
Qed.

(** ** The connection and its retries *)

Section Connection.
Import StreamingService.

(** While the factory keeps throwing, every unit of budget buys one
    delay and one more attempt, and the loop ends by completing. *)
Lemma retryLoop_all_fail (delayMs : Z) (budget attemptNo : nat) (this : t) :
  let out := retryLoop createRSocketClient delayMs budget attemptNo this in
  retryDelays (snd out) = replicate budget delayMs /\
  attempts (snd out) = S budget /\
  connectionStatus (fst out) = false /\
  reconnectAttempts (fst out) = (reconnectAttempts this + budget)%nat /\
  maxReconnectAttempts (fst out) = maxReconnectAttempts this /\
  last (snd out) = Some Complete /\
  ~ In Error (snd out).
Proof.
  revert attemptNo this.
  induction budget as [|budget IH]; intros attemptNo this; simpl.
  - repeat split; try reflexivity.
    + rewrite Nat.add_0_r. reflexivity.
    + intros [H|[H|[]]]; discriminate H.
  - specialize (IH (S attemptNo)
      (mkService false (S (reconnectAttempts this)) (maxReconnectAttempts this)
         (config this) (rsocketClient this))).
    simpl in IH.
    destruct (retryLoop createRSocketClient delayMs budget (S attemptNo) _)
      as [this3 evs]. simpl in *.
    destruct IH as (Hd & Ha & Hs & Hc & Hm & Hl & He).
    repeat split.
    + unfold retryDelays in *. simpl. rewrite Hd. reflexivity.
    + unfold attempts in *. simpl. rewrite Ha. reflexivity.
    + exact Hs.
    + destruct this3; simpl in *; lia.
    + exact Hm.
    + destruct evs as [|e evs']; [discriminate Hl|]. exact Hl.
    + intros [H|[H|[H|H]]]; try discriminate H. apply He, H.
Qed.

Lemma retryDelays_retry (delayMs : Z) (n : nat) (evs : list ConnEvent) :
  retryDelays (Attempt false :: Delay delayMs :: LogReconnect n :: evs)
  = delayMs :: retryDelays evs.
Proof. reflexivity. Qed.

Lemma retryLoop_failure (factory : nat -> option RSocketClient) (delayMs : Z)
    (budget attemptNo : nat) (this : t) :
  factory attemptNo = None ->
  retryLoop factory delayMs (S budget) attemptNo this
  = let this2 :=
      mkService false (S (reconnectAttempts this)) (maxReconnectAttempts this)
        (config this) (rsocketClient this) in
    let out := retryLoop factory delayMs budget (S attemptNo) this2 in
    (fst out,
     Attempt false :: Delay delayMs
       :: LogReconnect (S (reconnectAttempts this)) :: snd out).
Proof.
  intros Hf. simpl. rewrite Hf. simpl.
  destruct (retryLoop factory delayMs budget (S attemptNo) _). reflexivity.
Qed.

Lemma retryLoop_success (factory : nat -> option RSocketClient) (delayMs : Z)
    (budget attemptNo : nat) (this : t) (client : RSocketClient) :
  factory attemptNo = Some client ->
  retryLoop factory delayMs budget attemptNo this
  = (mkService true (reconnectAttempts this) (maxReconnectAttempts this)
       (config this) (Some client),
     [Attempt true; Next true; Complete]).
Proof.
  intros Hf. destruct budget; simpl; rewrite Hf; reflexivity.
Qed.

(** A factory that throws [j] times and then connects, within budget:
    the loop connects and has counted [j] retries. *)
Lemma retryLoop_connects (delayMs : Z) (j budget attemptNo : nat) (this : t) :
  (j <= budget)%nat ->
  let out :=
    retryLoop (failsThenConnects (attemptNo + j)) delayMs budget attemptNo this in
  connectionStatus (fst out) = true /\
  reconnectAttempts (fst out) = (reconnectAttempts this + j)%nat /\
  maxReconnectAttempts (fst out) = maxReconnectAttempts this /\
  retryDelays (snd out) = replicate j delayMs.
Proof.
  revert budget attemptNo this.
  induction j as [|j IH]; intros budget attemptNo this Hj out; subst out.
  - rewrite (retryLoop_success _ delayMs budget attemptNo this (Client attemptNo)).
    + simpl. repeat split; lia.
    + unfold failsThenConnects.
      rewrite Nat.add_0_r, Nat.ltb_irrefl. reflexivity.
  - destruct budget as [|budget]; [lia|].
    rewrite retryLoop_failure.
    + replace (attemptNo + S j)%nat with (S attemptNo + j)%nat by lia.
      pose proof (IH budget (S attemptNo)
        (mkService false (S (reconnectAttempts this)) (maxReconnectAttempts this)
           (config this) (rsocketClient this)) ltac:(lia)) as H.
      cbv zeta in *.
      set (r := retryLoop _ delayMs budget (S attemptNo) _) in *.
      clearbody r.
      destruct H as (Hs & Hc & Hm & Hd).
      split; [exact Hs|]. split; [etrans; [exact Hc|simpl; lia]|].
      split; [exact Hm|].
      simpl snd. rewrite retryDelays_retry, Hd. reflexivity.
    + unfold failsThenConnects.
      replace (attemptNo <? attemptNo + S j)%nat with true; [reflexivity|].
      symmetry. apply Nat.ltb_lt. lia.
Qed.

End Connection.

(** C3 (as the code has it).  While the connection keeps failing, every
    retry waits the same delay, the magnitude of the configured
    [reconnectDelay] (of 1000 ms when it is unset or zero), and not a
    growing one; the service makes [maxReconnectAttempts] retries after
    the first attempt, and then the observable completes, without an
    error, with the connection status false. *)
Theorem retries_wait_a_constant_delay
    (cfg : StreamingService.StreamConfig) (this : StreamingService.t) :
  let out := StreamingService.connect StreamingService.createRSocketClient cfg this in
  StreamingService.retryDelays (snd out)
  = replicate (StreamingService.maxReconnectAttempts this)
      (Z.abs (StreamingService.reconnectDelay cfg)) /\
  StreamingService.attempts (snd out)
  = S (StreamingService.maxReconnectAttempts this) /\
  StreamingService.connectionStatus (fst out) = false /\
  last (snd out) = Some StreamingService.Complete /\
  ~ In StreamingService.Error (snd out).
Proof.
  unfold StreamingService.connect.
  pose proof (retryLoop_all_fail (Z.abs (StreamingService.reconnectDelay cfg))
    (StreamingService.maxReconnectAttempts this) 0
    (StreamingService.mkService (StreamingService.connectionStatus this)
       (StreamingService.reconnectAttempts this)
       (StreamingService.maxReconnectAttempts this) (Some cfg)
       (StreamingService.rsocketClient this))) as H.
  simpl in *. destruct H as (Hd & Ha & Hs & _ & _ & Hl & He).
  repeat split; assumption.
Qed.

(** With a base delay of 100 ms and the five retries of the service. *)
Example retry_delays_at_100ms :
  StreamingService.retryDelays
    (snd (StreamingService.connect StreamingService.createRSocketClient
            config100 StreamingService.initial))
  = [100; 100; 100; 100; 100].
Proof. reflexivity. Qed.

(** C3 (as stated) fails: with a base delay of 100 ms the second and
    third retries wait 100 ms, not 200 ms and 400 ms. *)
Lemma exponential_backoff_counterexample :
  ~ (forall (n : nat) (d : Z),
       (n < 3)%nat ->
       StreamingService.retryDelays
         (snd (StreamingService.connect StreamingService.createRSocketClient
                 config100 StreamingService.initial)) !! n = Some d ->
       d = 100 * 2 ^ Z.of_nat n).
Proof.
  intros H. specialize (H 1%nat 100 ltac:(lia) eq_refl). discriminate H.
Qed.

(** C8 (as the code has it).  A connection that succeeds after [j]
    failed attempts leaves the retry counter at its old value plus [j]:
    only [disconnect] sets it to zero.  The retries of a subscription are
    bounded by its own count, so after any connection a later
    subscription that keeps failing again makes [maxReconnectAttempts]
    retries, each after the magnitude of the configured
    [reconnectDelay]. *)
Theorem counter_is_reset_by_disconnect_only
    (cfg : StreamingService.StreamConfig) (this : StreamingService.t) (j : nat) :
  (j <= StreamingService.maxReconnectAttempts this)%nat ->
  let this' :=
    fst (StreamingService.connect (StreamingService.failsThenConnects j) cfg this) in
  StreamingService.connectionStatus this' = true /\
  StreamingService.reconnectAttempts this'
  = (StreamingService.reconnectAttempts this + j)%nat /\
  StreamingService.reconnectAttempts (StreamingService.disconnect this') = 0%nat /\
  StreamingService.retryDelays
    (snd (StreamingService.connect StreamingService.createRSocketClient cfg this'))
  = replicate (StreamingService.maxReconnectAttempts this)
      (Z.abs (StreamingService.reconnectDelay cfg)).
Proof.
  intros Hj this'.
  assert (H : StreamingService.connectionStatus this' = true /\
              StreamingService.reconnectAttempts this'
              = (StreamingService.reconnectAttempts this + j)%nat /\
              StreamingService.maxReconnectAttempts this'
              = StreamingService.maxReconnectAttempts this).
  { pose proof (retryLoop_connects (Z.abs (StreamingService.reconnectDelay cfg)) j
      (StreamingService.maxReconnectAttempts this) 0
      (StreamingService.mkService (StreamingService.connectionStatus this)
         (StreamingService.reconnectAttempts this)
         (StreamingService.maxReconnectAttempts this) (Some cfg)
         (StreamingService.rsocketClient this)) Hj) as (Hs & Hc & Hm & _).
    split; [exact Hs|]. split; [exact Hc|exact Hm]. }
  clearbody this'. destruct H as (Hs & Hc & Hm).
  split; [exact Hs|]. split; [exact Hc|]. split; [reflexivity|].
  rewrite <- Hm.
  exact (proj1 (retryLoop_all_fail (Z.abs (StreamingService.reconnectDelay cfg))
    (StreamingService.maxReconnectAttempts this') 0
    (StreamingService.mkService (StreamingService.connectionStatus this')
       (StreamingService.reconnectAttempts this')
       (StreamingService.maxReconnectAttempts this') (Some cfg)
       (StreamingService.rsocketClient this')))).
Qed.

Lemma counter_is_reset_by_disconnect_only_witness :
  StreamingService.reconnectAttempts
    (fst (StreamingService.connect (StreamingService.failsThenConnects 2)
            config100 StreamingService.initial)) = 2%nat.
Proof.
  destruct (counter_is_reset_by_disconnect_only config100
              StreamingService.initial 2) as (_ & H & _).
  - simpl. lia.
  - exact H.
Defined.

(** C8 (as stated) fails: after two failed attempts and a successful
    third one the connection is up and the retry counter is 2, not 0. *)
Lemma counter_reset_on_reconnect_counterexample :
  let this' :=
    fst (StreamingService.connect (StreamingService.failsThenConnects 2)
           config100 StreamingService.initial) in
  StreamingService.connectionStatus this' = true /\
  ~ (StreamingService.reconnectAttempts this' = 0%nat).
Proof.
  split; [reflexivity|]. intros H. vm_compute in H. discriminate H.
Qed.

(** ** Debouncing and buffering *)

Section Streams.
Context {A : Type}.
Variable timerFirst : Z -> bool.

Lemma timerExpired_le (due t : Z) :
  timerExpired timerFirst due t = true -> due <= t.
Proof.
  unfold timerExpired. intros H. apply orb_true_iff in H.
  destruct H as [H|H]; [apply Z.ltb_lt in H; lia|].
  apply andb_true_iff in H. destruct H as [H _]. apply Z.eqb_eq in H. lia.
Qed.

Lemma timerExpired_lt (due t : Z) :
  due < t -> timerExpired timerFirst due t = true.
Proof.
  intros H. unfold timerExpired.
  replace (due <? t) with true by (symmetry; apply Z.ltb_lt; exact H).
  reflexivity.
Qed.

Lemma timerExpired_gt (due t : Z) :
  t < due -> timerExpired timerFirst due t = false.
Proof.
  intros H. unfold timerExpired.
  replace (due <? t) with false by (symmetry; apply Z.ltb_ge; lia).
  replace (due =? t) with false by (symmetry; apply Z.eqb_neq; lia).
  reflexivity.
Qed.

(** Where an emission of [debounceTime] comes from: it is the pending
    value, or a value of the source, due [dueTime] after it arrived. *)
Lemma debounceFrom_origin (dueTime : Z) (source : timed A)
    (pending : option (Z * A)) (e : Z * A) :
  In e (debounceFrom timerFirst dueTime pending source) ->
  pending = Some e \/
  exists t, In (t, snd e) source /\ fst e = t + dueTime.
Proof.
  revert pending. induction source as [|[t v] rest IH]; intros pending He.
  - destruct pending as [p|]; simpl in He; [|contradiction].
    destruct He as [->|[]]. left; reflexivity.
  - assert (Hrec : In e (debounceFrom timerFirst dueTime
                           (Some (t + dueTime, v)) rest) ->
                   exists t0, In (t0, snd e) ((t, v) :: rest)
                              /\ fst e = t0 + dueTime).
    { intros H. destruct (IH _ H) as [[= <-]|(t1 & Hin & Ht)].
      - exists t. split; [left; reflexivity|reflexivity].
      - exists t1. split; [right; exact Hin|exact Ht]. }
    simpl in He. destruct pending as [[due v0]|].
    + destruct (timerExpired timerFirst due t).
      * destruct He as [<-|He]; [left; reflexivity|right; apply Hrec, He].
      * right; apply Hrec, He.
    + right; apply Hrec, He.
Qed.

(** Debouncing only drops values. *)
Lemma debounceFrom_sublist (dueTime : Z) (source : timed A)
    (pending : option (Z * A)) :
  sublist (emissions (debounceFrom timerFirst dueTime pending source))
    (match pending with
     | Some p => snd p :: emissions source
     | None => emissions source
     end).
Proof.
  revert pending. induction source as [|[t v] rest IH]; intros pending.
  - destruct pending; simpl; reflexivity.
  - pose proof (IH (Some (t + dueTime, v))) as Hrec. simpl in Hrec.
    simpl. destruct pending as [[due v0]|].
    + destruct (timerExpired timerFirst due t); simpl.
      * apply sublist_skip, Hrec.
      * apply sublist_cons, Hrec.
    + exact Hrec.
Qed.

(** The emissions of [debounceTime] come in the order of their times. *)
Lemma debounceFrom_inTimeOrder (dueTime : Z) (source : timed A)
    (pending : option (Z * A)) :
  0 <= dueTime ->
  inTimeOrder source ->
  (forall p e, pending = Some p -> In e source -> fst p <= fst e + dueTime) ->
  inTimeOrder (debounceFrom timerFirst dueTime pending source).
Proof.
  intros Hd. revert pending.
  induction source as [|[t v] rest IH]; intros pending Hs Hp.
  - destruct pending; simpl; repeat constructor.
  - inversion Hs as [|? ? Hrest Hle]; subst.
    assert (Hrec : inTimeOrder (debounceFrom timerFirst dueTime
                                  (Some (t + dueTime, v)) rest)).
    { apply IH; [exact Hrest|].
      intros p e [= <-] He. simpl.
      rewrite List.Forall_forall in Hle. specialize (Hle e He). simpl in Hle. lia. }
    simpl. destruct pending as [[due v0]|]; [|exact Hrec].
    destruct (timerExpired timerFirst due t) eqn:E; [|exact Hrec].
    apply timerExpired_le in E. constructor; [exact Hrec|].
    apply List.Forall_forall. intros e He. simpl.
    destruct (debounceFrom_origin _ _ _ _ He) as [[= <-]|(t1 & Hin & Ht)].
    + simpl. lia.
    + rewrite List.Forall_forall in Hle. specialize (Hle _ Hin). simpl in Hle. lia.
Qed.

(** A value that the next one follows after more than [dueTime], or that
    no value follows, is emitted. *)
Lemma debounceFrom_survivor (dueTime : Z) (source : timed A)
    (pending : option (Z * A)) (i : nat) (t : Z) (v : A) :
  source !! i = Some (t, v) ->
  (forall t' v', source !! S i = Some (t', v') -> t + dueTime < t') ->
  In (t + dueTime, v) (debounceFrom timerFirst dueTime pending source).
Proof.
  revert pending i.
  induction source as [|[t0 v0] rest IH]; intros pending i Hi Hnext;
    [discriminate|].
  assert (Hrec : In (t + dueTime, v)
                   (debounceFrom timerFirst dueTime
                      (Some (t0 + dueTime, v0)) rest)).
  { destruct i as [|i].
    - injection Hi as -> ->.
      destruct rest as [|[t' v'] rest']; simpl; [left; reflexivity|].
      rewrite (timerExpired_lt _ _ (Hnext t' v' eq_refl)). left; reflexivity.
    - apply (IH _ i); [exact Hi|]. intros t' v' H. apply (Hnext t' v'). exact H. }
  simpl. destruct pending as [[due v1]|]; [|exact Hrec].
  destruct (timerExpired timerFirst due t0); [right|]; exact Hrec.
Qed.

(** The debounce with a value pending is the debounce of the stream that
    starts with that value. *)
Lemma debounceFrom_settled (dueTime : Z) (source : timed A) (t0 : Z) (v0 : A) :
  debounceFrom timerFirst dueTime (Some (t0 + dueTime, v0)) source
  = settled timerFirst dueTime ((t0, v0) :: source).
Proof.
  revert t0 v0. induction source as [|[t v] rest IH]; intros t0 v0.
  - reflexivity.
  - cbn [debounceFrom]. rewrite (IH t v). unfold settled, nextArrivals.
    cbn [tail map app zip zip_with List.filter fst snd].
    destruct (timerExpired timerFirst (t0 + dueTime) t); reflexivity.
Qed.

Lemma debounceTime_settled (dueTime : Z) (source : timed A) :
  debounceTime timerFirst dueTime source = settled timerFirst dueTime source.
Proof.
  unfold debounceTime. destruct source as [|[t v] rest]; [reflexivity|].
  cbn [debounceFrom]. apply debounceFrom_settled.
Qed.

Variable idx : Z * A -> Z.

Lemma filter_below_sorted (n : Z) (e : Z * A) (s : timed A) :
  n <= idx e ->
  Forall (fun e' => idx e <= idx e') s ->
  List.filter (fun e' => idx e' <? n) s = [].
Proof.
  intros Hn Hall. induction Hall as [|e' s He' _ IH]; simpl; [reflexivity|].
  replace (idx e' <? n) with false by (symmetry; apply Z.ltb_ge; lia).
  exact IH.
Qed.

(** In a list sorted by window, the values below window [n+1] are the
    values below window [n] followed by those of window [n]. *)
Lemma filter_window_split (n : Z) (s : timed A) :
  StronglySorted (fun a b => idx a <= idx b) s ->
  List.filter (fun e => idx e <? n + 1) s
  = List.filter (fun e => idx e <? n) s ++ List.filter (fun e => idx e =? n) s.
Proof.
  induction 1 as [|e s Hs IH Hle]; simpl; [reflexivity|].
  destruct (Z.lt_trichotomy (idx e) n) as [Hlt|[Heq|Hgt]].
  - replace (idx e <? n + 1) with true by (symmetry; apply Z.ltb_lt; lia).
    replace (idx e <? n) with true by (symmetry; apply Z.ltb_lt; lia).
    replace (idx e =? n) with false by (symmetry; apply Z.eqb_neq; lia).
    rewrite IH. reflexivity.
  - replace (idx e <? n + 1) with true by (symmetry; apply Z.ltb_lt; lia).
    replace (idx e <? n) with false by (symmetry; apply Z.ltb_ge; lia).
    replace (idx e =? n) with true by (symmetry; apply Z.eqb_eq; lia).
    rewrite IH, (filter_below_sorted n e s) by (assumption || lia).
    reflexivity.
  - replace (idx e <? n + 1) with false by (symmetry; apply Z.ltb_ge; lia).
    replace (idx e <? n) with false by (symmetry; apply Z.ltb_ge; lia).
    replace (idx e =? n) with false by (symmetry; apply Z.eqb_neq; lia).
    exact IH.
Qed.

(** The first [ticks] windows, end to end. *)
Lemma windows_concat (ticks : nat) (s : timed A) :
  StronglySorted (fun a b => idx a <= idx b) s ->
  Forall (fun e => 0 <= idx e) s ->
  concat (map (fun k => emissions (List.filter (fun e => idx e =? Z.of_nat k) s))
            (seq 0 ticks))
  = emissions (List.filter (fun e => idx e <? Z.of_nat ticks) s).
Proof.
  intros Hs Hpos. induction ticks as [|n IH].
  - simpl. clear Hs. induction Hpos as [|e s He _ IH]; simpl; [reflexivity|].
    change (Z.of_nat 0) with 0 in *.
    replace (idx e <? 0) with false by (symmetry; apply Z.ltb_ge; lia).
    exact IH.
  - rewrite seq_S, map_app, concat_app, IH.
    cbn [map concat Nat.add]. rewrite app_nil_r.
    rewrite Nat2Z.inj_succ, <- Z.add_1_r.
    rewrite (filter_window_split (Z.of_nat n) s Hs).
    unfold emissions. rewrite map_app. reflexivity.
Qed.

End Streams.

(** [bufferTime]: the buffers of a stream that is in time order and
    falls within the ticks observed are the stream, cut in pieces. *)
Lemma bufferTime_concat {A} (span t0 : Z) (ticks : nat) (s : timed A) :
  0 < span ->
  inTimeOrder s ->
  (forall e, In e s -> t0 <= fst e < t0 + span * Z.of_nat ticks) ->
  concat (bufferTime span t0 ticks s) = emissions s.
Proof.
  intros Hspan Hs Hrange.
  unfold bufferTime, bufferAt.
  rewrite (windows_concat (fun e => windowOf span t0 (fst e)) ticks s).
  - f_equal. clear Hs. induction s as [|e s IH]; simpl; [reflexivity|].
    assert (He : (windowOf span t0 (fst e) <? Z.of_nat ticks) = true).
    { apply Z.ltb_lt. unfold windowOf. apply Z.div_lt_upper_bound; [lia|].
      specialize (Hrange e (or_introl eq_refl)). lia. }
    rewrite He, IH; [reflexivity|].
    intros e' He'. apply Hrange. right. exact He'.
  - clear Hrange. induction Hs as [|e s Hs IH Hle]; constructor; [exact IH|].
    eapply Forall_impl; [exact Hle|]. intros e' He'. simpl in He'.
    unfold windowOf. apply Z.div_le_mono; lia.
  - apply List.Forall_forall. intros e He. unfold windowOf.
    apply Z.div_pos; [|lia]. specialize (Hrange e He). lia.
Qed.

Lemma dropNull_concat (buffers : list (list (option row))) :
  concat (map dropNull buffers) = dropNull (concat buffers).
Proof.
  induction buffers as [|b bs IH]; simpl; [reflexivity|].
  unfold dropNull in *. rewrite omap_app, IH. reflexivity.
Qed.

(** C4 (as the code has it).  What reaches the update queue is settled
    by the 50 ms debounce: a delivered message is queued, 50 ms after it
    arrived, exactly when it is the last one delivered or the next one
    is delivered more than 50 ms after it (when the next one is
    delivered exactly 50 ms after it the timer races with the arrival,
    and either may happen); every other delivered message is dropped.
    For messages delivered in time order and all queued within the ticks
    observed, the arrays handed to the subscriber, laid end to end, are
    the queued messages ([null] apart), each once and in arrival
    order. *)
Theorem queued_messages_are_batched_once
    (timerFirst : Z -> bool) (t0 : Z) (ticks : nat)
    (delivered : timed (option row)) :
  let queue := subscribeToStream timerFirst delivered in
  (inTimeOrder delivered ->
   (forall e, In e delivered ->
              t0 <= fst e + 50 < t0 + 100 * Z.of_nat ticks) ->
   concat (setupBatchUpdates t0 ticks queue) = dropNull (emissions queue)) /\
  queue = settled timerFirst 50 delivered /\
  sublist (emissions queue) (emissions delivered) /\
  (forall i t v,
     delivered !! i = Some (t, v) ->
     (forall t' v', delivered !! S i = Some (t', v') -> t + 50 < t') ->
     In (t + 50, v) queue).
Proof.
  intros queue. subst queue.
  unfold subscribeToStream.
  split; [|split; [|split]].
  - intros Hs Hrange. unfold setupBatchUpdates, debounceTime.
    rewrite dropNull_concat. f_equal.
    apply bufferTime_concat; [lia| |].
    + apply debounceFrom_inTimeOrder; [lia|exact Hs|discriminate].
    + intros e He.
      destruct (debounceFrom_origin _ _ _ _ _ He) as [H|(t & Hin & Ht)];
        [discriminate|].
      specialize (Hrange _ Hin). simpl in Hrange. lia.
  - apply debounceTime_settled.
  - exact (debounceFrom_sublist timerFirst 50 delivered None).
  - intros i t v Hi Hnext.
    apply (debounceFrom_survivor timerFirst 50 delivered None i t v Hi Hnext).
Qed.

Lemma queued_messages_are_batched_once_witness :
  concat (setupBatchUpdates 0 3
            (subscribeToStream (fun _ => true)
               [(0, Some price10); (10, Some price12); (120, None)]))
  = dropNull
      (emissions
         (subscribeToStream (fun _ => true)
            [(0, Some price10); (10, Some price12); (120, None)])).
Proof.
  destruct (queued_messages_are_batched_once (fun _ => true) 0 3
              [(0, Some price10); (10, Some price12); (120, None)]) as [H _].
  apply H.
  - repeat constructor; simpl; lia.
  - intros e [<-|[<-|[<-|[]]]]; simpl; lia.
Defined.

(** Three messages of which the second comes 10 ms after the first: the
    first is dropped whichever way a race would go. *)
Example settled_drops_the_overtaken (timerFirst : Z -> bool) :
  subscribeToStream timerFirst
    [(0, Some price10); (10, Some price12); (120, None)]
  = [(60, Some price12); (170, None)].
Proof.
  unfold subscribeToStream. rewrite debounceTime_settled. reflexivity.
Qed.

(** C4 (as stated) fails: of two messages delivered 10 ms apart the
    first is dropped by the debounce and is in no array handed to the
    subscriber, whichever way a race would go. *)
Lemma delivered_message_in_a_batch_counterexample :
  ~ (forall m,
       In m (dropNull (emissions [(0, Some price10); (10, Some price12)])) ->
       In m (concat (setupBatchUpdates 0 3
                       (subscribeToStream (fun _ => true)
                          [(0, Some price10); (10, Some price12)])))).
Proof.
  intros H. specialize (H price10 (or_introl eq_refl)).
  cbn in H. destruct H as [H|[]].
  apply (f_equal (fun r : row => r !! "price")) in H.
  vm_compute in H. discriminate H.
Qed.

(** ** Further properties of the merge *)

Section MergeMore.
Import JsMap JsMapFacts.

Lemma length_set {V} (k : value) (v : V) (m : t V) :
  length (set k v m) = if has k m then length m else S (length m).
Proof.
  unfold has. induction m as [|[k0 v0] m IH]; simpl; [reflexivity|].
  destruct (sameValueZero k0 k); simpl; [reflexivity|].
  rewrite IH. destruct (get k m); reflexivity.
Qed.

Lemma In_values_set {V} (k : value) (v x : V) (m : t V) :
  In x (values (set k v m)) -> x = v \/ In x (values m).
Proof.
  unfold values. induction m as [|[k0 v0] m IH]; simpl.
  - intros [<-|[]]. left; reflexivity.
  - destruct (sameValueZero k0 k); simpl.
    + intros [<-|H]; [left; reflexivity|right; right; exact H].
    + intros [<-|H]; [right; left; reflexivity|].
      destruct (IH H) as [->|H']; [left; reflexivity|right; right; exact H'].
Qed.

Lemma get_app {V} (k : value) (m1 m2 : t V) :
  get k (m1 ++ m2) = match get k m1 with Some x => Some x | None => get k m2 end.
Proof.
  induction m1 as [|[k0 v0] m1 IH]; simpl; [reflexivity|].
  destruct (sameValueZero k0 k); [reflexivity|exact IH].
Qed.

Lemma get_None_In {V} (k k' : value) (v' : V) (m : t V) :
  get k m = None -> In (k', v') m -> sameValueZero k' k = false.
Proof.
  induction m as [|[k0 v0] m IH]; simpl; [contradiction|].
  destruct (sameValueZero k0 k) eqn:E; [discriminate|].
  intros Hnone [[= <- <-]|Hin]; [exact E|apply IH; assumption].
Qed.

(** Setting a key that the map has changes no key. *)
Lemma keys_set_present {V} (k : value) (v : V) (m : t V) :
  has k m = true -> keys (set k v m) = keys m.
Proof.
  unfold has, keys. induction m as [|[k0 v0] m IH]; simpl; [discriminate|].
  destruct (sameValueZero k0 k); simpl; [reflexivity|].
  intros H. rewrite (IH H). reflexivity.
Qed.

Lemma keyed_set_value (k : value) (v : row) (m : t row) :
  sameValueZero k (msgId v) = true -> keyed m -> keyed (set k v m).
Proof.
  intros Hk. induction m as [|[k0 v0] m IH]; simpl.
  - intros _. split; [exact Hk|split; trivial].
  - intros (Hk0 & Hfresh & Hm).
    destruct (sameValueZero k0 k) eqn:E; simpl.
    + split; [|split; assumption].
      rewrite (sameValueZero_congr_l _ _ _ E). exact Hk.
    + split; [exact Hk0|]. split; [|apply IH, Hm].
      rewrite get_set, sameValueZero_sym, E. exact Hfresh.
Qed.

(** The values of a keyed map have pairwise distinct identifiers. *)
Lemma keyed_distinctIds (m : t row) : keyed m -> distinctIds (values m).
Proof.
  induction m as [|[k0 v0] m IH]; simpl; [trivial|].
  intros (Hk0 & Hfresh & Hm). split; [|apply IH, Hm].
  apply List.Forall_forall. intros r Hr. unfold values in Hr.
  apply in_map_iff in Hr. destruct Hr as ([k' v'] & <- & Hin). simpl.
  assert (Hk' : sameValueZero k' (msgId v') = true).
  { clear -Hm Hin. induction m as [|[k1 v1] m IH]; [contradiction|].
    destruct Hm as (H1 & _ & Hm). destruct Hin as [[= -> ->]|Hin];
      [exact H1|apply IH; assumption]. }
  unfold idIs.
  rewrite <- (sameValueZero_congr_l _ _ _ Hk').
  rewrite <- (sameValueZero_congr_r _ _ _ Hk0).
  eapply get_None_In; eassumption.
Qed.

(** Filing rows with distinct identifiers appends them in order. *)
Lemma fold_set_distinct (rows : list row) (acc : t row) :
  distinctIds rows ->
  Forall (fun r => get (msgId r) acc = None) rows ->
  fold_left (fun a u => set (msgId u) u a) rows acc
  = acc ++ map (fun r => (msgId r, r)) rows.
Proof.
  revert acc. induction rows as [|r rest IH]; intros acc Hd Hacc; simpl.
  - rewrite app_nil_r. reflexivity.
  - destruct Hd as [Hr Hrest].
    inversion Hacc as [|? ? Hr0 Hacc']; subst.
    rewrite (set_fresh _ _ _ Hr0), IH; [|exact Hrest|].
    + rewrite <- app_assoc. reflexivity.
    + rewrite List.Forall_forall in *. intros r' Hr'.
      rewrite get_app, (Hacc' r' Hr'). simpl.
      specialize (Hr r' Hr'). unfold idIs in Hr.
      rewrite sameValueZero_sym, Hr. reflexivity.
Qed.

Lemma tableMap_fold (rows : list row) :
  tableMap rows = fold_left (fun a u => set (msgId u) u a) rows empty.
Proof.
  unfold tableMap, of_entries. generalize (@empty row).
  induction rows as [|r rest IH]; intros acc; simpl; [reflexivity|apply IH].
Qed.

Lemma tableMap_distinct (rows : list row) :
  distinctIds rows -> tableMap rows = map (fun r => (msgId r, r)) rows.
Proof.
  intros Hd. rewrite tableMap_fold, (fold_set_distinct rows empty Hd).
  - reflexivity.
  - apply List.Forall_forall. intros r _. reflexivity.
Qed.

Lemma keyed_tableMap (rows : list row) : keyed (tableMap rows).
Proof. rewrite tableMap_fold. apply keyed_fold_set. exact I. Qed.

Lemma mergeStep_bounds (clock : nat -> Qc) (us : list row) (m : t row) (n : nat) :
  let out := fst (fold_left (mergeStep clock) us (m, n)) in
  (length out <= length m + length us)%nat /\
  (forall u, In u (values out) -> In u (values m) \/ In u us).
Proof.
  revert m n. induction us as [|u us IH]; intros m n; simpl.
  - split; [lia|]. intros x Hx. left; exact Hx.
  - destruct (truthy (msgId u)).
    + destruct (IH (set (msgId u) u m) n) as [Hlen Hin]. split.
      * rewrite length_set in Hlen. destruct (has (msgId u) m); lia.
      * intros x Hx. destruct (Hin x Hx) as [H|H]; [|right; right; exact H].
        destruct (In_values_set _ _ _ _ H) as [->|H'];
          [right; left; reflexivity|left; exact H'].
    + destruct (IH (set (VNum (clock n)) u m) (S n)) as [Hlen Hin]. split.
      * rewrite length_set in Hlen. destruct (has (VNum (clock n)) m); lia.
      * intros x Hx. destruct (Hin x Hx) as [H|H]; [|right; right; exact H].
        destruct (In_values_set _ _ _ _ H) as [->|H'];
          [right; left; reflexivity|left; exact H'].
Qed.

End MergeMore.

(** X1.  In a batch whose messages all carry an identifier, the merge
    keeps for every key exactly the message that arrived last for it (and
    nothing for a key without message), and no two merged messages have
    the same identifier. *)
Theorem merge_keeps_the_last_message_of_every_key
    (clock : nat -> Qc) (batch : list row) :
  Forall identified batch ->
  (forall k,
     List.filter (idIs k) (mergeUpdates clock batch)
     = match last (List.filter (idIs k) batch) with
       | Some u => [u]
       | None => []
       end) /\
  distinctIds (mergeUpdates clock batch).
Proof.
  intros Hid. split.
  - intros k. apply mergeUpdates_last_per_key. exact Hid.
  - unfold mergeUpdates. rewrite (mergeMap_identified clock batch Hid).
    apply keyed_distinctIds, keyed_fold_set. exact I.
Qed.

Lemma merge_keeps_the_last_message_of_every_key_witness :
  List.filter (idIs (VStr "1"))
    (mergeUpdates sampleClock [price10; update2; price12; remove2])
  = [price12].
Proof.
  destruct (merge_keeps_the_last_message_of_every_key sampleClock
              [price10; update2; price12; remove2]) as [H _].
  - repeat constructor.
  - exact (H (VStr "1")).
Defined.

Lemma mergeUpdates_In (clock : nat -> Qc) (batch : list row) (u : row) :
  In u (mergeUpdates clock batch) -> In u batch.
Proof.
  intros Hu. destruct (mergeStep_bounds clock batch JsMap.empty 0) as [_ Hin].
  destruct (Hin u Hu) as [[]|H]. exact H.
Qed.

(** X2.  Whatever the batch, the merge never invents a message and never
    returns more messages than it was given. *)
Theorem merge_returns_messages_of_the_batch
    (clock : nat -> Qc) (batch : list row) :
  (length (mergeUpdates clock batch) <= length batch)%nat /\
  (forall u, In u (mergeUpdates clock batch) -> In u batch).
Proof.
  destruct (mergeStep_bounds clock batch JsMap.empty 0) as [Hlen Hin].
  split.
  - unfold mergeUpdates, mergeMap, JsMap.values. rewrite length_map.
    simpl in Hlen. exact Hlen.
  - intros u. apply mergeUpdates_In.
Qed.

(** X3.  Merging is idempotent on identified messages: a merged batch
    merges to itself. *)
Theorem merge_of_a_merged_batch
    (clock clock' : nat -> Qc) (batch : list row) :
  Forall identified batch ->
  mergeUpdates clock' (mergeUpdates clock batch) = mergeUpdates clock batch.
Proof.
  intros Hid.
  assert (Hid' : Forall identified (mergeUpdates clock batch)).
  { apply List.Forall_forall. intros u Hu.
    rewrite List.Forall_forall in Hid. apply Hid.
    apply (mergeUpdates_In clock batch u Hu). }
  assert (Hd : distinctIds (mergeUpdates clock batch)).
  { unfold mergeUpdates. rewrite (mergeMap_identified clock batch Hid).
    apply keyed_distinctIds, keyed_fold_set. exact I. }
  unfold mergeUpdates at 1. rewrite (mergeMap_identified clock' _ Hid').
  rewrite (fold_set_distinct _ JsMap.empty Hd).
  - unfold JsMap.values. simpl. rewrite map_map. simpl. apply map_id.
  - apply List.Forall_forall. intros r _. reflexivity.
Qed.

Lemma merge_of_a_merged_batch_witness :
  mergeUpdates sampleClock
    (mergeUpdates sampleClock [price10; update2; price12; remove2])
  = mergeUpdates sampleClock [price10; update2; price12; remove2].
Proof.
  apply (merge_of_a_merged_batch sampleClock sampleClock
           [price10; update2; price12; remove2]).
  repeat constructor.
Defined.

Lemma merge_unidentified (clock : nat -> Qc) (us : list row)
    (m : JsMap.t row) (n : nat) :
  Forall (fun u => truthy (msgId u) = false) us ->
  (forall i j, (i < j < n + length us)%nat ->
     sameValueZero (VNum (clock i)) (VNum (clock j)) = false) ->
  (forall j, (n <= j < n + length us)%nat ->
     JsMap.get (VNum (clock j)) m = None) ->
  JsMap.values (fst (fold_left (mergeStep clock) us (m, n)))
  = JsMap.values m ++ us.
Proof.
  revert m n. induction us as [|u us IH]; intros m n Hun Hclock Hfresh; simpl.
  - rewrite app_nil_r. reflexivity.
  - inversion Hun as [|? ? Hu Hus]; subst. rewrite Hu.
    simpl in Hclock, Hfresh.
    rewrite (JsMapFacts.set_fresh _ _ _ (Hfresh n ltac:(lia))).
    rewrite IH; [| exact Hus | |].
    + unfold JsMap.values. rewrite map_app, <- app_assoc. reflexivity.
    + intros i j Hij. apply Hclock. lia.
    + intros j Hj. rewrite get_app, (Hfresh j ltac:(lia)). simpl.
      rewrite (Hclock n j ltac:(lia)). reflexivity.
Qed.

(** X4.  Messages without identifier are all kept, in arrival order,
    whenever the clock readings taken during the merge are pairwise
    different. *)
Theorem merge_keeps_messages_without_identifier
    (clock : nat -> Qc) (batch : list row) :
  Forall (fun u => truthy (msgId u) = false) batch ->
  (forall i j, (i < j < length batch)%nat ->
     sameValueZero (VNum (clock i)) (VNum (clock j)) = false) ->
  mergeUpdates clock batch = batch.
Proof.
  intros Hun Hclock. unfold mergeUpdates, mergeMap.
  rewrite (merge_unidentified clock batch JsMap.empty 0 Hun).
  - reflexivity.
  - intros i j Hij. apply Hclock. lia.
  - intros j _. reflexivity.
Qed.

Lemma merge_keeps_messages_without_identifier_witness :
  mergeUpdates sampleClock [zero10; zero12] = [zero10; zero12].
Proof.
  apply (merge_keeps_messages_without_identifier sampleClock [zero10; zero12]).
  - repeat constructor.
  - intros i j Hij. simpl in Hij.
    assert (i = 0%nat /\ j = 1%nat) as [-> ->] by lia. reflexivity.
Defined.

(** ** Further properties of the table *)

Section TableMore.
Import JsMap JsMapFacts.

(** The identifier of a row survives the update laid over it. *)
Lemma msgId_spread (existing update : row) :
  sameValueZero (msgId existing) (msgId update) = true ->
  sameValueZero (msgId update) (msgId (spread existing update)) = true.
Proof.
  unfold msgId, js_or, prop. rewrite !spread_lookup.
  set (ei := default VUndef (existing !! "id")).
  set (ek := default VUndef (existing !! "key")).
  destruct (update !! "id") as [a|] eqn:Eid; cbn -[sameValueZero truthy].
  - destruct (truthy a) eqn:Ta; [intros _; apply sameValueZero_refl|].
    destruct (update !! "key") as [b|] eqn:Ekey; cbn -[sameValueZero truthy];
      [intros _; apply sameValueZero_refl|].
    fold ek. intros H. rewrite sameValueZero_sym.
    destruct (truthy ei) eqn:Te; [|exact H].
    rewrite (truthy_sameValueZero _ _ H) in Te. discriminate Te.
  - fold ei. change (truthy VUndef) with false. cbv iota.
    destruct (truthy ei) eqn:Te.
    + intros H. rewrite sameValueZero_sym. exact H.
    + destruct (update !! "key") as [b|] eqn:Ekey; cbn -[sameValueZero truthy];
        [intros _; apply sameValueZero_refl|].
      fold ek. intros H. rewrite sameValueZero_sym. exact H.
Qed.

Lemma keyed_get (k : value) (v : row) (m : t row) :
  keyed m -> get k m = Some v -> sameValueZero k (msgId v) = true.
Proof.
  induction m as [|[k0 v0] m IH]; simpl; [discriminate|].
  intros (Hk0 & _ & Hm). destruct (sameValueZero k0 k) eqn:E.
  - intros [= <-]. rewrite <- (sameValueZero_congr_l _ _ _ E). exact Hk0.
  - apply IH, Hm.
Qed.

Lemma keyed_applyStep (d : t row) (u : row) : keyed d -> keyed (applyStep d u).
Proof.
  intros Hd. unfold applyStep.
  destruct (get (msgId u) d) as [e|] eqn:E.
  - apply keyed_set_value; [|exact Hd].
    apply msgId_spread. rewrite sameValueZero_sym.
    exact (keyed_get _ _ _ Hd E).
  - apply keyed_set_value; [apply sameValueZero_refl|exact Hd].
Qed.

Lemma keyed_applyMap (currentData updates : list row) :
  keyed (applyMap currentData updates).
Proof.
  unfold applyMap. generalize (keyed_tableMap currentData).
  generalize (tableMap currentData).
  induction updates as [|u us IH]; intros d Hd; simpl; [exact Hd|].
  apply IH, keyed_applyStep, Hd.
Qed.

Lemma length_applyStep (d : t row) (u : row) :
  (length d <= length (applyStep d u) <= S (length d))%nat.
Proof.
  unfold applyStep.
  destruct (get (msgId u) d) eqn:E; rewrite length_set; unfold has; rewrite E; lia.
Qed.

Lemma length_fold_applyStep (us : list row) (d : t row) :
  (length d <= length (fold_left applyStep us d) <= length d + length us)%nat.
Proof.
  revert d. induction us as [|u us IH]; intros d; simpl; [lia|].
  specialize (IH (applyStep d u)). pose proof (length_applyStep d u). lia.
Qed.

Lemma length_tableMap (rows : list row) :
  (length (tableMap rows) <= length rows)%nat.
Proof.
  rewrite tableMap_fold.
  assert (H : forall acc : t row,
    (length (fold_left (fun a u => set (msgId u) u a) rows acc)
     <= length acc + length rows)%nat).
  { induction rows as [|r rest IH]; intros acc; simpl; [lia|].
    specialize (IH (set (msgId r) r acc)). rewrite length_set in IH.
    destruct (has (msgId r) acc); lia. }
  apply (H empty).
Qed.

End TableMore.

(** X5.  A flush without updates gives back a table whose rows have
    pairwise distinct identifiers exactly as it was. *)
Theorem no_updates_return_the_table (currentData : list row) :
  distinctIds currentData ->
  applyUpdatesToData currentData [] = currentData.
Proof.
  intros Hd. unfold applyUpdatesToData, applyMap. simpl.
  rewrite (tableMap_distinct currentData Hd).
  unfold JsMap.values. rewrite map_map. simpl. apply map_id.
Qed.

Lemma no_updates_return_the_table_witness :
  applyUpdatesToData [resident2; price10] [] = [resident2; price10].
Proof.
  apply (no_updates_return_the_table [resident2; price10]).
  repeat constructor.
Defined.

(** X6.  Whatever the table and the updates, the returned table has at
    most one row per identifier, and so a later flush without updates
    leaves it as it is. *)
Theorem returned_table_has_one_row_per_identifier
    (currentData updates : list row) :
  distinctIds (applyUpdatesToData currentData updates) /\
  applyUpdatesToData (applyUpdatesToData currentData updates) []
  = applyUpdatesToData currentData updates.
Proof.
  assert (Hd : distinctIds (applyUpdatesToData currentData updates)).
  { unfold applyUpdatesToData. apply keyed_distinctIds, keyed_applyMap. }
  split; [exact Hd|].
  unfold applyUpdatesToData at 1. unfold applyMap. simpl.
  rewrite (tableMap_distinct _ Hd).
  unfold JsMap.values at 1. rewrite map_map. simpl. apply map_id.
Qed.

Section Replay.
Import JsMap JsMapFacts.

(** Updates laid over a row one after the other amount to one object
    laid over it. *)
Lemma fold_spread_union (us : list row) (x : row) :
  fold_left spread us x = fold_left spread us ∅ ∪ x.
Proof.
  revert x. induction us as [|u us IH]; intros x; simpl.
  - apply map_eq. intros i. rewrite lookup_union, lookup_empty.
    destruct (x !! i); reflexivity.
  - rewrite (IH (spread x u)), (IH (spread ∅ u)). unfold spread.
    apply map_eq. intros i. rewrite !lookup_union, lookup_empty.
    destruct (fold_left (fun a b => b ∪ a) us ∅ !! i), (u !! i), (x !! i);
      reflexivity.
Qed.

Lemma fold_overlay_Some (us : list row) (x : row) :
  fold_left (fun o u => Some (overlay o u)) us (Some x)
  = Some (fold_left spread us x).
Proof.
  revert x. induction us as [|u us IH]; intros x; simpl; [reflexivity|].
  apply IH.
Qed.

(** Laying the same updates over a row a second time changes nothing. *)
Lemma fold_overlay_twice (us : list row) (o : option row) :
  fold_left (fun o u => Some (overlay o u)) us
    (fold_left (fun o u => Some (overlay o u)) us o)
  = fold_left (fun o u => Some (overlay o u)) us o.
Proof.
  destruct o as [x|].
  - rewrite !fold_overlay_Some. f_equal.
    rewrite (fold_spread_union us (fold_left spread us x)).
    rewrite (fold_spread_union us x).
    generalize (fold_left spread us ∅). intros U.
    apply map_eq. intros i. rewrite !lookup_union.
    destruct (U !! i), (x !! i); reflexivity.
  - destruct us as [|u us]; [reflexivity|]. simpl.
    rewrite !fold_overlay_Some. f_equal. cbn [overlay].
    rewrite (fold_spread_union us (spread _ u)), (fold_spread_union us u).
    generalize (fold_left spread us ∅). intros U. unfold spread.
    apply map_eq. intros i. rewrite !lookup_union.
    destruct (U !! i), (u !! i); reflexivity.
Qed.

Lemma get_rekeyed (k : value) (m : t row) :
  keyed m -> get k (map (fun r => (msgId r, r)) (values m)) = get k m.
Proof.
  induction m as [|[k0 v0] m IH]; simpl; [reflexivity|].
  intros (Hk0 & _ & Hm).
  rewrite <- (sameValueZero_congr_l _ _ k Hk0), (IH Hm). reflexivity.
Qed.

Lemma get_tableMap_values (k : value) (m : t row) :
  keyed m -> get k (tableMap (values m)) = get k m.
Proof.
  intros Hm. rewrite (tableMap_distinct _ (keyed_distinctIds m Hm)).
  apply get_rekeyed, Hm.
Qed.

(** Two keyed maps with the same keys in the same order and the same
    entry under every key are the same map. *)
Lemma keyed_maps_equal (a b : t row) :
  keyed a -> keyed b -> keys a = keys b ->
  (forall k, get k a = get k b) -> a = b.
Proof.
  revert b. induction a as [|[k v] a IH]; intros [|[k' w] b] Ha Hb Hkeys Hget;
    try discriminate; [reflexivity|].
  simpl in Hkeys. injection Hkeys as <- Hkeys.
  destruct Ha as (_ & Hfa & Ha). destruct Hb as (_ & Hfb & Hb).
  pose proof (Hget k) as Hk. simpl in Hk.
  rewrite sameValueZero_refl in Hk. injection Hk as <-.
  f_equal. apply IH; try assumption.
  intros k1. specialize (Hget k1). simpl in Hget.
  destruct (sameValueZero k k1) eqn:E; [|exact Hget].
  rewrite <- (get_congr _ _ a E), <- (get_congr _ _ b E), Hfa, Hfb.
  reflexivity.
Qed.

Lemma has_applyStep_self (d : t row) (u : row) :
  has (msgId u) (applyStep d u) = true.
Proof.
  unfold has. rewrite get_applyStep. unfold idIs.
  rewrite sameValueZero_refl. reflexivity.
Qed.

Lemma has_fold_applyStep_In (us : list row) (d : t row) (u : row) :
  In u us -> has (msgId u) (fold_left applyStep us d) = true.
Proof.
  revert d. induction us as [|u0 us IH]; intros d; simpl; [contradiction|].
  intros [->|Hin]; [|apply IH, Hin].
  apply has_fold_applyStep, has_applyStep_self.
Qed.

Lemma keys_fold_applyStep (us : list row) (d : t row) :
  Forall (fun u => has (msgId u) d = true) us ->
  keys (fold_left applyStep us d) = keys d.
Proof.
  revert d. induction us as [|u us IH]; intros d Hall; simpl; [reflexivity|].
  inversion Hall as [|? ? Hu Hus]; subst.
  rewrite IH.
  - unfold applyStep. unfold has in Hu.
    destruct (get (msgId u) d) eqn:E; [|discriminate].
    apply keys_set_present. unfold has. rewrite E. reflexivity.
  - eapply Forall_impl; [exact Hus|]. intros u' Hu'.
    apply (has_fold_applyStep (msgId u') [u] d Hu').
Qed.

End Replay.

(** X8.  A flush is idempotent: handing the same updates again to the
    table that a flush returned gives that table back, row for row. *)
Theorem same_updates_twice (currentData updates : list row) :
  applyUpdatesToData (applyUpdatesToData currentData updates) updates
  = applyUpdatesToData currentData updates.
Proof.
  set (m := applyMap currentData updates).
  assert (Hm : keyed m) by apply keyed_applyMap.
  assert (Hd : distinctIds (JsMap.values m)) by apply keyed_distinctIds, Hm.
  assert (Hfix : applyMap (JsMap.values m) updates = tableMap (JsMap.values m)).
  { apply keyed_maps_equal.
    - apply keyed_applyMap.
    - apply keyed_tableMap.
    - unfold applyMap. apply keys_fold_applyStep.
      apply List.Forall_forall. intros u Hu. unfold JsMap.has.
      rewrite (get_tableMap_values _ m Hm).
      exact (has_fold_applyStep_In updates (tableMap currentData) u Hu).
    - intros k. unfold applyMap at 1.
      rewrite get_fold_applyStep, !(get_tableMap_values k m Hm).
      unfold m, applyMap. rewrite get_fold_applyStep.
      apply fold_overlay_twice. }
  unfold applyUpdatesToData at 1. fold m.
  change (applyUpdatesToData currentData updates) with (JsMap.values m).
  rewrite Hfix, (tableMap_distinct _ Hd).
  unfold JsMap.values at 1. rewrite map_map. simpl. apply map_id.
Qed.

(** ** A run of flush cycles *)

Lemma onBatch_skips (clock : nat -> Qc) (this : Component) (updates : list row) :
  no_grid (gridApi this) = true \/ updates = [] ->
  onBatch clock this updates = Returned this [].
Proof.
  unfold onBatch, processBatchUpdates.
  intros [H| ->]; [rewrite H; destruct (0 <? length updates)%nat|]; reflexivity.
Qed.

Lemma onBatch_flushes (clock : nat -> Qc) (this : Component) (updates : list row) :
  no_grid (gridApi this) = false -> updates <> [] ->
  onBatch clock this updates
  = Returned
      (mkComponent (gridApi this)
         (applyUpdatesToData (rowData this) (mergeUpdates clock updates)))
      [ApplyTransaction
         (mkTransaction None (Some (mergeUpdates clock updates)) None)].
Proof.
  intros Hgrid Hne. unfold onBatch.
  destruct updates as [|u us]; [contradiction|].
  apply processBatchUpdates_ready, Hgrid.
Qed.

Lemma transactions_app (cs cs' : list GridCall) :
  transactions (cs ++ cs') = (transactions cs + transactions cs')%nat.
Proof. unfold transactions. rewrite List.filter_app, length_app. reflexivity. Qed.

(** X9.  Over any run of flush cycles the subscriber never throws and
    keeps the grid handle; it makes one grid call, a transaction, for
    every array that is not empty, and none at all while the grid is not
    ready, in which case the table is left as it was: the arrays are
    dropped. *)
Theorem run_of_flush_cycles
    (clock : nat -> nat -> Qc) (tick : nat) (this : Component)
    (batches : list (list row)) :
  exists this' calls,
    runBatches clock tick this batches = Returned this' calls /\
    gridApi this' = gridApi this /\
    (no_grid (gridApi this) = true -> this' = this) /\
    length calls = transactions calls /\
    transactions calls
    = (if no_grid (gridApi this) then 0
       else length (List.filter (fun b => (0 <? length b)%nat) batches))%nat.
Proof.
  revert tick this. induction batches as [|updates rest IH]; intros tick this.
  - exists this, []. simpl. repeat split; try reflexivity.
    destruct (no_grid (gridApi this)); reflexivity.
  - cbn [runBatches].
    destruct (no_grid (gridApi this)) eqn:Hgrid.
    + rewrite (onBatch_skips (clock tick) this updates (or_introl Hgrid)).
      destruct (IH (S tick) this)
        as (this' & calls & Hrun & Hapi & Hsame & Hlen & Htx).
      rewrite Hgrid in Htx.
      exists this', calls. unfold mbind, outcome_bind. rewrite Hrun. simpl.
      repeat split; try assumption. intros _. apply Hsame, Hgrid.
    + destruct updates as [|u us].
      * rewrite (onBatch_skips (clock tick) this [] (or_intror eq_refl)).
        destruct (IH (S tick) this)
          as (this' & calls & Hrun & Hapi & Hsame & Hlen & Htx).
        rewrite Hgrid in Htx.
        exists this', calls. unfold mbind, outcome_bind. rewrite Hrun. simpl.
        repeat split; try assumption. discriminate.
      * rewrite (onBatch_flushes (clock tick) this (u :: us) Hgrid)
          by discriminate.
        set (this1 := mkComponent _ _).
        destruct (IH (S tick) this1)
          as (this' & calls & Hrun & Hapi & Hsame & Hlen & Htx).
        change (no_grid (gridApi this1)) with (no_grid (gridApi this)) in Htx.
        rewrite Hgrid in Htx.
        eexists this', _. unfold mbind, outcome_bind. rewrite Hrun.
        split; [reflexivity|].
        split; [exact Hapi|]. split; [discriminate|].
        cbn [app]. unfold transactions in *.
        cbn [length List.filter Nat.ltb Nat.leb]. rewrite Hlen, Htx.
        split; reflexivity.
Qed.

(** ** Further properties of the debounce and of the buffers *)

Section StreamsMore.
Context {A : Type}.
Variable timerFirst : Z -> bool.

Lemma debounceFrom_last (dueTime : Z) (source : timed A)
    (pending : option (Z * A)) (t : Z) (v : A) :
  last (debounceFrom timerFirst dueTime pending (source ++ [(t, v)]))
  = Some (t + dueTime, v).
Proof.
  revert pending. induction source as [|[t0 v0] rest IH]; intros pending.
  - simpl. destruct pending as [[due v1]|]; [|reflexivity].
    destruct (timerExpired timerFirst due t); reflexivity.
  - simpl.
    pose proof (IH (Some (t0 + dueTime, v0))) as Hrec.
    destruct pending as [[due v1]|]; [|exact Hrec].
    destruct (timerExpired timerFirst due t0); [|exact Hrec].
    destruct (debounceFrom timerFirst dueTime (Some (t0 + dueTime, v0))
                (rest ++ [(t, v)]));
      [discriminate Hrec|exact Hrec].
Qed.

(** With the pending value due before the next arrival, and all later
    arrivals spaced, nothing is dropped. *)
Lemma debounceFrom_spaced (dueTime : Z) (source : timed A) (t0 : Z) (v0 : A) :
  spaced dueTime (t0 :: map fst source) ->
  debounceFrom timerFirst dueTime (Some (t0 + dueTime, v0)) source
  = (t0 + dueTime, v0) :: map (fun e => (fst e + dueTime, snd e)) source.
Proof.
  revert t0 v0. induction source as [|[t v] rest IH]; intros t0 v0 Hs.
  - reflexivity.
  - cbn [map fst spaced] in Hs. destruct Hs as [Hgap Hrest].
    cbn [debounceFrom].
    rewrite (timerExpired_lt timerFirst _ _ Hgap).
    rewrite (IH t v Hrest). reflexivity.
Qed.

(** With every arrival following the one before within the due time,
    only the last value comes out. *)
Lemma debounceFrom_burst (dueTime : Z) (source : timed A) (t0 : Z) (v0 : A) :
  burst dueTime (t0 :: map fst source) ->
  debounceFrom timerFirst dueTime (Some (t0 + dueTime, v0)) source
  = match last source with
    | Some (t, v) => [(t + dueTime, v)]
    | None => [(t0 + dueTime, v0)]
    end.
Proof.
  revert t0 v0. induction source as [|[t v] rest IH]; intros t0 v0 Hs.
  - reflexivity.
  - cbn [map fst burst] in Hs. destruct Hs as [Hgap Hrest].
    cbn [debounceFrom].
    rewrite (timerExpired_gt timerFirst _ _ Hgap).
    rewrite (IH t v Hrest).
    destruct rest as [|e rest']; [reflexivity|].
    change (last ((t, v) :: e :: rest')) with (last (e :: rest')).
    destruct (last (e :: rest')) as [[t' v']|] eqn:E; [reflexivity|].
    apply last_None in E. discriminate E.
Qed.

End StreamsMore.

Section BuffersMore.
Context {A : Type}.

Lemma In_bufferAt (span t0 : Z) (k : nat) (source : timed A) (v : A) :
  In v (bufferAt span t0 k source) <->
  exists t, In (t, v) source /\ windowOf span t0 t = Z.of_nat k.
Proof.
  unfold bufferAt, emissions. rewrite in_map_iff. split.
  - intros ([t v'] & Hv & Hin). simpl in Hv. subst v'.
    apply filter_In in Hin. destruct Hin as [Hin Hw]. simpl in Hw.
    exists t. split; [exact Hin|apply Z.eqb_eq, Hw].
  - intros (t & Hin & Hw). exists (t, v). split; [reflexivity|].
    apply filter_In. split; [exact Hin|apply Z.eqb_eq, Hw].
Qed.

End BuffersMore.

Lemma In_dropNull (updates : list (option row)) (r : row) :
  In r (dropNull updates) <-> In (Some r) updates.
Proof.
  unfold dropNull. induction updates as [|[u|] us IH]; simpl.
  - tauto.
  - rewrite IH. split; intros [H|H]; auto; left; congruence.
  - rewrite IH. split; [auto|]. intros [H|H]; [discriminate|exact H].
Qed.

(** X10.  The message delivered last is never lost to the debounce: it
    is the last one queued, 50 ms after it arrived. *)
Theorem latest_message_is_queued
    (timerFirst : Z -> bool)
    (delivered : timed (option row)) (t : Z) (v : option row) :
  last delivered = Some (t, v) ->
  last (subscribeToStream timerFirst delivered) = Some (t + 50, v).
Proof.
  intros Hlast. apply last_Some in Hlast. destruct Hlast as [earlier ->].
  apply debounceFrom_last.
Qed.

Lemma latest_message_is_queued_witness :
  last (subscribeToStream (fun _ => false)
          [(0, Some price10); (10, Some price12)])
  = Some (60, Some price12).
Proof.
  apply (latest_message_is_queued (fun _ => false)
           [(0, Some price10); (10, Some price12)] 10 (Some price12)).
  reflexivity.
Defined.

(** X11.  Messages delivered more than 50 ms apart all reach the queue,
    in order, each 50 ms after it arrived, whichever way a race between
    a timer and an arrival would go. *)
Theorem spaced_messages_are_all_queued
    (timerFirst : Z -> bool) (delivered : timed (option row)) :
  spaced 50 (map fst delivered) ->
  subscribeToStream timerFirst delivered
  = map (fun e => (fst e + 50, snd e)) delivered.
Proof.
  intros Hs. unfold subscribeToStream, debounceTime.
  destruct delivered as [|[t v] rest]; [reflexivity|].
  cbn [debounceFrom]. apply (debounceFrom_spaced timerFirst 50 rest t v Hs).
Qed.

Lemma spaced_messages_are_all_queued_witness :
  subscribeToStream (fun _ => false)
    [(0, Some price10); (51, Some price12); (170, None)]
  = [(50, Some price10); (101, Some price12); (220, None)].
Proof.
  apply (spaced_messages_are_all_queued (fun _ => false)
           [(0, Some price10); (51, Some price12); (170, None)]).
  simpl. lia.
Defined.

(** X12.  Of a burst of messages, each delivered less than 50 ms after
    the one before, only the last reaches the queue. *)
Theorem burst_leaves_the_last_message
    (timerFirst : Z -> bool)
    (delivered : timed (option row)) (t : Z) (v : option row) :
  burst 50 (map fst delivered) ->
  last delivered = Some (t, v) ->
  subscribeToStream timerFirst delivered = [(t + 50, v)].
Proof.
  intros Hb Hlast. unfold subscribeToStream, debounceTime.
  destruct delivered as [|[t0 v0] rest]; [discriminate|].
  cbn [debounceFrom]. rewrite (debounceFrom_burst timerFirst 50 rest t0 v0 Hb).
  destruct rest as [|e rest'].
  - simpl in Hlast. injection Hlast as -> ->. reflexivity.
  - change (last ((t0, v0) :: e :: rest')) with (last (e :: rest')) in Hlast.
    rewrite Hlast. reflexivity.
Qed.

Lemma burst_leaves_the_last_message_witness :
  subscribeToStream (fun _ => true)
    [(0, Some price10); (49, Some zero10); (98, Some price12)]
  = [(148, Some price12)].
Proof.
  apply (burst_leaves_the_last_message (fun _ => true)
           [(0, Some price10); (49, Some zero10); (98, Some price12)]
           98 (Some price12)).
  - simpl. lia.
  - reflexivity.
Defined.

(** X13.  The array handed to the subscriber at tick [k] holds exactly
    the queued messages, [null] apart, that arrived in the 100 ms window
    from [t0 + 100 k] on. *)
Theorem batch_holds_its_window
    (t0 : Z) (ticks k : nat) (queue : timed (option row))
    (updates : list row) (r : row) :
  setupBatchUpdates t0 ticks queue !! k = Some updates ->
  (In r updates <->
   exists t, In (t, Some r) queue /\
             t0 + 100 * Z.of_nat k <= t < t0 + 100 * (Z.of_nat k + 1)).
Proof.
  intros Hk. apply setupBatchUpdates_lookup in Hk. subst updates.
  rewrite In_dropNull, In_bufferAt. unfold windowOf.
  split; intros (t & Hin & Hw); exists t; (split; [exact Hin|]).
  - pose proof (Z.div_mod (t - t0) 100 ltac:(lia)).
    pose proof (Z.mod_pos_bound (t - t0) 100 ltac:(lia)). lia.
  - symmetry. apply (Z.div_unique_pos (t - t0) 100 _ (t - t0 - 100 * Z.of_nat k));
      lia.
Qed.

Lemma batch_holds_its_window_witness :
  In price12 [price12] <->
  exists t, In (t, Some price12)
              [(50, Some price10); (100, Some price12); (220, None)] /\
            0 + 100 * Z.of_nat 1 <= t < 0 + 100 * (Z.of_nat 1 + 1).
Proof.
  apply (batch_holds_its_window 0 3 1
           [(50, Some price10); (100, Some price12); (220, None)]
           [price12] price12).
  reflexivity.
Defined.

(** ** Topics *)

(** X14.  Whatever reaches the subscriber of the batches is the payload
    of a message of the subscribed topic: no message of another topic
    gets into a batch. *)
Theorem only_the_subscribed_topic_reaches_a_batch
    (timerFirst : Z -> bool)
    (topicName : string) (messages : timed StreamingService.StreamMessage)
    (t0 : Z) (ticks : nat) (r : row) :
  In r (concat (setupBatchUpdates t0 ticks
                  (subscribeToStream timerFirst
                     (StreamingService.subscribeToTopic topicName messages)))) ->
  exists t m,
    In (t, m) messages /\
    StreamingService.topic m = topicName /\
    StreamingService.payload m = Some r.
Proof.
  intros Hr. apply in_concat in Hr. destruct Hr as (batch & Hbatch & Hr).
  unfold setupBatchUpdates, bufferTime in Hbatch.
  apply in_map_iff in Hbatch. destruct Hbatch as (buffer & <- & Hbuffer).
  apply in_map_iff in Hbuffer. destruct Hbuffer as (k & <- & _).
  apply In_dropNull, In_bufferAt in Hr. destruct Hr as (t & Hq & _).
  unfold subscribeToStream, debounceTime in Hq.
  apply debounceFrom_origin in Hq. destruct Hq as [Hq|(t' & Hd & _)];
    [discriminate|].
  simpl in Hd. unfold StreamingService.subscribeToTopic in Hd.
  apply in_map_iff in Hd. destruct Hd as ([t1 m] & Heq & Hin).
  apply filter_In in Hin. destruct Hin as [Hin Htopic].
  simpl in Heq, Htopic. injection Heq as _ Hpayload.
  exists t1, m. split; [exact Hin|]. split; [|exact Hpayload].
  apply String.eqb_eq, Htopic.
Qed.

Lemma only_the_subscribed_topic_reaches_a_batch_witness :
  exists t m,
    In (t, m)
      [(0, StreamingService.mkMessage "other" (Some zero10) 0);
       (10, StreamingService.mkMessage "prices" (Some price12) 10)] /\
    StreamingService.topic m = "prices" /\
    StreamingService.payload m = Some price12.
Proof.
  apply (only_the_subscribed_topic_reaches_a_batch (fun _ => true) "prices"
           [(0, StreamingService.mkMessage "other" (Some zero10) 0);
            (10, StreamingService.mkMessage "prices" (Some price12) 10)]
           0 3 price12).
  left. reflexivity.
Defined.

(** X15.  [subscribeToTopics] delivers exactly the messages whose topic
    is listed, in order; with one topic listed their payloads are what
    [subscribeToTopic] delivers for that topic, and with none listed
    nothing is delivered. *)
Theorem subscribeToTopics_and_subscribeToTopic
    (topics : list string) (topicName : string)
    (messages : timed StreamingService.StreamMessage) :
  (forall e, In e (subscribeToTopics topics messages) <->
             In e messages /\ In (StreamingService.topic (snd e)) topics) /\
  sublist (subscribeToTopics topics messages) messages /\
  map (fun e => (fst e, StreamingService.payload (snd e)))
    (subscribeToTopics [topicName] messages)
  = StreamingService.subscribeToTopic topicName messages /\
  subscribeToTopics [] messages = [].
Proof.
  split; [|split; [|split]].
  - intros e. unfold subscribeToTopics. rewrite filter_In, existsb_exists.
    split; intros [Hin H]; (split; [exact Hin|]).
    + destruct H as (x & Hx & Heq). apply String.eqb_eq in Heq. subst x.
      exact Hx.
    + exists (StreamingService.topic (snd e)). split; [exact H|].
      apply String.eqb_refl.
  - unfold subscribeToTopics.
    induction messages as [|e ms IH]; simpl; [constructor|].
    destruct (existsb _ topics); [apply sublist_skip|apply sublist_cons]; exact IH.
  - unfold subscribeToTopics, StreamingService.subscribeToTopic. f_equal.
    apply List.filter_ext. intros e. simpl. apply orb_false_r.
  - unfold subscribeToTopics. induction messages as [|e ms IH]; simpl;
      [reflexivity|exact IH].
Qed.

(** ** The connection, for any factory *)

Section ConnectionMore.
Import StreamingService.

Lemma retryLoop_success_outcome (budget : nat) (delayMs : Z) (this : t) (client : RSocketClient) :
  let out :=
    (mkService true (reconnectAttempts this) (maxReconnectAttempts this)
       (config this) (Some client),
     [Attempt true; Next true; Complete]) in
  ~ In Error (snd out) /\
  last (snd out) = Some Complete /\
  attempts (snd out) = S (length (retryDelays (snd out))) /\
  (length (retryDelays (snd out)) <= budget)%nat /\
  Forall (fun d => d = delayMs) (retryDelays (snd out)) /\
  (In (Next true) (snd out) <-> connectionStatus (fst out) = true) /\
  (connectionStatus (fst out) = true -> rsocketClient (fst out) <> None) /\
  maxReconnectAttempts (fst out) = maxReconnectAttempts this /\
  reconnectAttempts (fst out)
  = (reconnectAttempts this + length (retryDelays (snd out)))%nat.
Proof.
  cbv zeta. simpl.
  split; [intros [H|[H|[H|[]]]]; discriminate H|].
  split; [reflexivity|]. split; [reflexivity|]. split; [lia|].
  split; [constructor|].
  split; [split; [reflexivity|intros _; right; left; reflexivity]|].
  split; [discriminate|]. split; [reflexivity|]. lia.
Qed.

Lemma retryLoop_outcome (factory : nat -> option RSocketClient) (delayMs : Z)
    (budget attemptNo : nat) (this : t) :
  let out := retryLoop factory delayMs budget attemptNo this in
  ~ In Error (snd out) /\
  last (snd out) = Some Complete /\
  attempts (snd out) = S (length (retryDelays (snd out))) /\
  (length (retryDelays (snd out)) <= budget)%nat /\
  Forall (fun d => d = delayMs) (retryDelays (snd out)) /\
  (In (Next true) (snd out) <-> connectionStatus (fst out) = true) /\
  (connectionStatus (fst out) = true -> rsocketClient (fst out) <> None) /\
  maxReconnectAttempts (fst out) = maxReconnectAttempts this /\
  reconnectAttempts (fst out)
  = (reconnectAttempts this + length (retryDelays (snd out)))%nat.
Proof.
  revert attemptNo this.
  induction budget as [|budget IH]; intros attemptNo this out; subst out;
    destruct (factory attemptNo) as [client|] eqn:Hf.
  - rewrite (retryLoop_success factory delayMs 0 attemptNo this client Hf).
    apply retryLoop_success_outcome.
  - simpl. rewrite Hf. simpl.
    split; [intros [H|[H|[]]]; discriminate H|].
    split; [reflexivity|]. split; [reflexivity|]. split; [lia|].
    split; [constructor|].
    split; [split; [intros [H|[H|[]]]; discriminate H|discriminate]|].
    split; [discriminate|]. split; [reflexivity|]. lia.
  - rewrite (retryLoop_success factory delayMs (S budget) attemptNo this client Hf).
    apply retryLoop_success_outcome.
  - rewrite (retryLoop_failure factory delayMs budget attemptNo this Hf).
    cbv zeta.
    pose proof (IH (S attemptNo)
      (mkService false (S (reconnectAttempts this)) (maxReconnectAttempts this)
         (config this) (rsocketClient this))) as H.
    cbv zeta in H.
    set (r := retryLoop factory delayMs budget (S attemptNo) _) in *.
    clearbody r.
    destruct H as (He & Hl & Ha & Hn & Hd & Hnext & Hc & Hm & Hr).
    cbn [fst snd]. rewrite retryDelays_retry. cbn [length].
    split; [intros [H|[H|[H|H]]]; try discriminate H; apply He, H|].
    split; [destruct (snd r); [discriminate Hl|exact Hl]|].
    split; [unfold attempts in *; cbn [List.filter length]; rewrite Ha;
            reflexivity|].
    split; [lia|]. split; [constructor; [reflexivity|exact Hd]|].
    split; [rewrite <- Hnext; split;
            [intros [H|[H|[H|H]]]; try discriminate H; exact H
            |intros H; right; right; right; exact H]|].
    split; [exact Hc|]. split; [exact Hm|].
    rewrite Hr. cbn [reconnectAttempts]. lia.
Qed.

End ConnectionMore.

(** X16.  Whatever the connection factory does, the subscriber of
    [connect] never receives an error: the observable always completes,
    after at most [maxReconnectAttempts] retries, each of them after the
    same delay, the magnitude of the configured [reconnectDelay]; it emits [true] exactly when the service ends up
    connected, and a connected service has a client.  The retry counter
    has grown by the number of retries made. *)
Theorem connect_always_completes
    (factory : nat -> option StreamingService.RSocketClient)
    (cfg : StreamingService.StreamConfig) (this : StreamingService.t) :
  let out := StreamingService.connect factory cfg this in
  let delays := StreamingService.retryDelays (snd out) in
  ~ In StreamingService.Error (snd out) /\
  last (snd out) = Some StreamingService.Complete /\
  StreamingService.attempts (snd out) = S (length delays) /\
  (length delays <= StreamingService.maxReconnectAttempts this)%nat /\
  Forall (fun d => d = Z.abs (StreamingService.reconnectDelay cfg)) delays /\
  (In (StreamingService.Next true) (snd out) <->
   StreamingService.connectionStatus (fst out) = true) /\
  (StreamingService.connectionStatus (fst out) = true ->
   StreamingService.rsocketClient (fst out) <> None) /\
  StreamingService.reconnectAttempts (fst out)
  = (StreamingService.reconnectAttempts this + length delays)%nat.
Proof.
  unfold StreamingService.connect.
  pose proof (retryLoop_outcome factory (Z.abs (StreamingService.reconnectDelay cfg))
    (StreamingService.maxReconnectAttempts this) 0
    (StreamingService.mkService (StreamingService.connectionStatus this)
       (StreamingService.reconnectAttempts this)
       (StreamingService.maxReconnectAttempts this) (Some cfg)
       (StreamingService.rsocketClient this))) as H.
  cbv zeta in *. cbn [StreamingService.maxReconnectAttempts
                      StreamingService.reconnectAttempts] in H.
  destruct H as (He & Hl & Ha & Hn & Hd & Hnext & Hc & _ & Hr).
  repeat split; try assumption; apply Hnext.
Qed.

(** ** The service over any sequence of calls *)

Lemma service_invariant (calls : list ServiceCall) :
  (StreamingService.connectionStatus (serviceAfter calls) = true ->
   StreamingService.rsocketClient (serviceAfter calls) <> None) /\
  StreamingService.maxReconnectAttempts (serviceAfter calls) = 5%nat.
Proof.
  unfold serviceAfter.
  assert (H : forall s,
    ((StreamingService.connectionStatus s = true ->
      StreamingService.rsocketClient s <> None) /\
     StreamingService.maxReconnectAttempts s = 5%nat) ->
    (StreamingService.connectionStatus (fold_left serviceStep calls s) = true ->
     StreamingService.rsocketClient (fold_left serviceStep calls s) <> None) /\
    StreamingService.maxReconnectAttempts (fold_left serviceStep calls s) = 5%nat).
  { induction calls as [|c calls IH]; intros s Hs; [exact Hs|].
    simpl. apply IH. destruct c as [factory cfg|]; simpl.
    - unfold StreamingService.connect.
      pose proof (retryLoop_outcome factory (Z.abs (StreamingService.reconnectDelay cfg))
        (StreamingService.maxReconnectAttempts s) 0
        (StreamingService.mkService (StreamingService.connectionStatus s)
           (StreamingService.reconnectAttempts s)
           (StreamingService.maxReconnectAttempts s) (Some cfg)
           (StreamingService.rsocketClient s))) as H.
      cbv zeta in H. destruct H as (_ & _ & _ & _ & _ & _ & Hc & Hm & _).
      split; [exact Hc|]. etrans; [exact Hm|apply Hs].
    - split; [discriminate|apply Hs]. }
  apply H. split; [discriminate|reflexivity].
Qed.

(** X17.  After any sequence of [connect] and [disconnect] calls on a
    fresh service: a request is sent exactly when the service is
    connected, and then the client decides the outcome; a service that is
    not connected answers "Not connected to stream" and sends nothing.
    The call on a missing client never happens.  After [disconnect], or
    after a [connect] whose attempts all failed, the service is not
    connected. *)
Theorem sendMessage_after_any_calls
    (calls : list ServiceCall) (respond : Response)
    (topic : string) (payload : value)
    (cfg : StreamingService.StreamConfig) :
  sendMessage respond (serviceAfter calls) topic payload
  = (if isConnected (serviceAfter calls)
     then match respond with
          | Answers => [Requested topic payload; SendNext true; SendComplete]
          | Fails error => [Requested topic payload; SendError error]
          | Throws error => [SendError error]
          end
     else [SendError "Not connected to stream"]) /\
  isConnected (serviceAfter (calls ++ [CallDisconnect])) = false /\
  isConnected
    (serviceAfter
       (calls ++ [CallConnect StreamingService.createRSocketClient cfg]))
  = false.
Proof.
  split; [|split].
  - destruct (service_invariant calls) as [Hinv _].
    unfold sendMessage, isConnected.
    destruct (StreamingService.connectionStatus (serviceAfter calls)) eqn:E;
      [|reflexivity].
    simpl. destruct (StreamingService.rsocketClient (serviceAfter calls));
      [reflexivity|]. exfalso. apply Hinv; reflexivity.
  - unfold serviceAfter. rewrite fold_left_app. reflexivity.
  - unfold serviceAfter. rewrite fold_left_app. simpl. unfold isConnected.
    generalize (fold_left serviceStep calls StreamingService.initial).
    intros s. unfold StreamingService.connect.
    exact (proj1 (proj2 (proj2 (retryLoop_all_fail
      (Z.abs (StreamingService.reconnectDelay cfg))
      (StreamingService.maxReconnectAttempts s) 0
      (StreamingService.mkService (StreamingService.connectionStatus s)
         (StreamingService.reconnectAttempts s)
         (StreamingService.maxReconnectAttempts s) (Some cfg)
         (StreamingService.rsocketClient s)))))).
Qed.

(** X18.  [handleStreamMessage] pushes a message for every payload but
    [null] and [undefined]; the message has a truthy topic ("unknown"
    when the payload has none), the time of its arrival, and a payload
    that is the [data] of the raw payload when that is truthy and the raw
    payload otherwise, so never [null] or [undefined]. *)
Theorem handleStreamMessage_builds (now : Z) (payload : value) :
  (handleStreamMessage now payload = None <->
   payload = VUndef \/ payload = VNull) /\
  (forall m, handleStreamMessage now payload = Some m ->
     truthy (built_topic m) = true /\
     (forall topic, member payload "topic" = Some topic ->
        built_topic m = if truthy topic then topic else VStr "unknown") /\
     (forall data, member payload "data" = Some data ->
        built_payload m = if truthy data then data else payload) /\
     built_payload m <> VNull /\ built_payload m <> VUndef /\
     built_timestamp m = now).
Proof.
  split.
  - destruct payload; simpl; split; try discriminate; auto;
      intros [H|H]; discriminate H.
  - intros m Hm.
    assert (Hshape : exists topic data partition offset,
      member payload "topic" = Some topic /\
      member payload "data" = Some data /\
      m = mkBuilt (js_or topic (VStr "unknown")) (js_or data payload) now
            partition offset /\
      (truthy payload = false -> data = VUndef) /\
      payload <> VNull /\ payload <> VUndef).
    { destruct payload; simpl in Hm; try discriminate;
        injection Hm as <-; do 4 eexists;
        (split; [reflexivity|]); (split; [reflexivity|]);
        (split; [reflexivity|]); repeat split; try discriminate;
        try reflexivity. }
    destruct Hshape as (topic & data & partition & offset
                        & Ht & Hd & -> & Hfalsy & Hnn & Hnu).
    simpl. unfold js_or.
    split; [destruct (truthy topic) eqn:E; [exact E|reflexivity]|].
    split; [intros topic' Ht'; rewrite Ht in Ht'; injection Ht' as <-;
            reflexivity|].
    split; [intros data' Hd'; rewrite Hd in Hd'; injection Hd' as <-;
            reflexivity|].
    split; [|split; [|reflexivity]].
    + destruct (truthy data) eqn:E; [|exact Hnn].
      intros ->. discriminate E.
    + destruct (truthy data) eqn:E; [|exact Hnu].
      intros ->. discriminate E.
Qed.

(** ** The adapter with a grid, and column definitions *)

(** X19.  [applyColumnDefaults] keeps the number and the order of the
    columns; in every column a property the column sets keeps its value,
    any other property takes the default, so every default property is
    set; and applying the defaults a second time changes nothing. *)
Theorem applyColumnDefaults_fills_unset_properties (columnDefs : list ColDef) :
  length (applyColumnDefaults columnDefs) = length columnDefs /\
  (forall i colDef, columnDefs !! i = Some colDef ->
     exists filled,
       applyColumnDefaults columnDefs !! i = Some filled /\
       (forall p v, colDef !! p = Some v -> filled !! p = Some v) /\
       (forall p, colDef !! p = None -> filled !! p = defaultColDef !! p) /\
       (forall p, is_Some (defaultColDef !! p) -> is_Some (filled !! p))) /\
  applyColumnDefaults (applyColumnDefaults columnDefs)
  = applyColumnDefaults columnDefs.
Proof.
  unfold applyColumnDefaults. split; [apply length_map|]. split.
  - intros i colDef Hi. exists (spread defaultColDef colDef).
    split; [rewrite list_lookup_fmap, Hi; reflexivity|].
    split; [|split].
    + intros p v Hp. rewrite spread_lookup, Hp. reflexivity.
    + intros p Hp. rewrite spread_lookup, Hp. reflexivity.
    + intros p Hp. rewrite spread_lookup.
      destruct (colDef !! p); [eexists; reflexivity|exact Hp].
  - rewrite map_map. apply map_ext. intros colDef. unfold spread.
    apply map_eq. intros p. rewrite !lookup_union.
    destruct (colDef !! p), (defaultColDef !! p); reflexivity.
Qed.

(** X20.  [createColumnDef] gives a column with the field and the header
    name asked for, unless the options name them: what the options set
    always wins, the field and the header name included.  The defaults
    applied afterwards change neither. *)
Theorem createColumnDef_options_win
    (field headerName : string) (options : option ColDef) :
  let colDef := createColumnDef field headerName options in
  let named p := match options with Some o => o !! p | None => None end in
  (forall p v, named p = Some v -> colDef !! p = Some v) /\
  (named "field" = None -> colDef !! "field" = Some (VStr field)) /\
  (named "headerName" = None ->
   colDef !! "headerName" = Some (VStr headerName)) /\
  (forall p, p = "field" \/ p = "headerName" ->
     forall filled, applyColumnDefaults [colDef] = [filled] ->
       filled !! p = colDef !! p).
Proof.
  intros colDef named. subst colDef named. unfold createColumnDef.
  split; [|split; [|split]].
  - intros p v Hp. rewrite spread_lookup.
    destruct options as [o|]; simpl in *; [rewrite Hp; reflexivity|discriminate].
  - intros Hp. rewrite spread_lookup.
    destruct options as [o|]; simpl; [rewrite Hp|]; reflexivity.
  - intros Hp. rewrite spread_lookup.
    destruct options as [o|]; simpl; [rewrite Hp|]; reflexivity.
  - intros p Hp filled [= <-]. rewrite (spread_lookup defaultColDef).
    destruct (spread _ (default ∅ options) !! p); [reflexivity|].
    destruct Hp as [-> | ->]; reflexivity.
Qed.

(** X21.  With a grid, exporting asks the grid for one CSV export under
    a file name that is never empty: the name given, or the default of
    the operation when none or the empty name is given; all rows for
    [exportToCsv], the selected rows only for [exportSelectedToCsv]. *)
Theorem export_file_name_is_never_empty
    (api : GridApi) (fileName : option string) :
  exists name name',
    GridAdapterService.exportToCsv (Some api) fileName
    = Returned tt [ExportDataAsCsv (mkCsvParams name false)] /\
    GridAdapterService.exportSelectedToCsv (Some api) fileName
    = Returned tt [ExportDataAsCsv (mkCsvParams name' true)] /\
    name <> "" /\ name' <> "" /\
    (forall s, fileName = Some s -> s <> "" -> name = s /\ name' = s) /\
    (fileName = None \/ fileName = Some "" ->
     name = "grid-export" /\ name' = "grid-selected-export").
Proof.
  exists (str_or fileName "grid-export"), (str_or fileName "grid-selected-export").
  split; [reflexivity|]. split; [reflexivity|].
  unfold str_or. destruct fileName as [given|].
  - destruct (String.eqb given "") eqn:E.
    + apply String.eqb_eq in E. subst given.
      split; [discriminate|]. split; [discriminate|]. split.
      * intros s' [= <-] H. contradiction.
      * intros _. split; reflexivity.
    + apply String.eqb_neq in E.
      split; [exact E|]. split; [exact E|]. split.
      * intros s' [= <-] _. split; reflexivity.
      * intros [H|[= H]]; [discriminate|contradiction].
  - split; [discriminate|]. split; [discriminate|]. split.
    + intros s' H. discriminate H.
    + intros _. split; reflexivity.
Qed.

(** X22.  With a grid, [selectRowsByCondition] walks the nodes once and
    selects exactly the nodes whose data satisfy the condition; it
    deselects nothing and makes no other call. *)
Theorem selectRowsByCondition_selects_the_matching_nodes
    (api : GridApi) (condition : row -> bool) :
  exists selections,
    GridAdapterService.selectRowsByCondition (Some api) condition
    = Returned tt (ForEachNode :: selections) /\
    selections
    = map (fun node => SetSelected node true)
        (List.filter (fun node => condition (node_data node)) (api_nodes api)) /\
    (forall node selected,
       In (SetSelected node selected) selections <->
       selected = true /\ In node (api_nodes api) /\
       condition (node_data node) = true).
Proof.
  eexists. split; [reflexivity|].
  assert (Hsel : flat_map
            (fun node =>
               if condition (node_data node) then [SetSelected node true] else [])
            (api_nodes api)
          = map (fun node => SetSelected node true)
              (List.filter (fun node => condition (node_data node))
                 (api_nodes api))).
  { induction (api_nodes api) as [|n ns IH]; simpl; [reflexivity|].
    destruct (condition (node_data n)); simpl; rewrite IH; reflexivity. }
  split; [exact Hsel|].
  intros node selected. rewrite Hsel, in_map_iff. split.
  - intros (n & [= <- <-] & Hin). apply filter_In in Hin.
    destruct Hin as [Hin Hc]. repeat split; assumption.
  - intros (-> & Hin & Hc). exists node. split; [reflexivity|].
    apply filter_In. split; assumption.
Qed.

(** ** The search box of the data table *)

Lemma distinctFrom_In (previous : option value) (source : timed value)
    (e : Z * value) :
  In e (distinctFrom previous source) -> In e source.
Proof.
  revert previous. induction source as [|[t v] rest IH]; intros previous; simpl;
    [trivial|].
  destruct previous as [p|].
  - destruct (sameValueZero p v).
    + intros H. right. exact (IH _ H).
    + intros [<-|H]; [left; reflexivity|right; exact (IH _ H)].
  - intros [<-|H]; [left; reflexivity|right; exact (IH _ H)].
Qed.

Lemma distinctFrom_noRepeat (previous : option value) (source : timed value) :
  noRepeat (match previous with
            | Some p => p :: emissions (distinctFrom previous source)
            | None => emissions (distinctFrom previous source)
            end).
Proof.
  revert previous. induction source as [|[t v] rest IH]; intros previous.
  - destruct previous; exact I.
  - pose proof (IH (Some v)) as Hv. cbn [distinctFrom].
    destruct previous as [p|]; [|exact Hv].
    destruct (sameValueZero p v) eqn:E; [exact (IH (Some p))|].
    cbn [emissions map snd noRepeat]. split; [exact E|exact Hv].
Qed.

(** The value emitted last, or the previous one when nothing is emitted,
    equals the last value of the source. *)
Lemma distinctFrom_last (previous : option value) (source : timed value)
    (t : Z) (v : value) :
  match last (distinctFrom previous (source ++ [(t, v)])) with
  | Some e => sameValueZero (snd e) v = true
  | None => exists p, previous = Some p /\ sameValueZero p v = true
  end.
Proof.
  revert previous. induction source as [|[t0 v0] rest IH]; intros previous.
  - simpl. destruct previous as [p|]; [|apply sameValueZero_refl].
    destruct (sameValueZero p v) eqn:E; simpl;
      [exists p; split; [reflexivity|exact E]|apply sameValueZero_refl].
  - assert (Hemit : match last ((t0, v0)
                            :: distinctFrom (Some v0) (rest ++ [(t, v)])) with
                    | Some e => sameValueZero (snd e) v = true
                    | None => False
                    end).
    { pose proof (IH (Some v0)) as H.
      destruct (distinctFrom (Some v0) (rest ++ [(t, v)])) as [|e l] eqn:E.
      - simpl in *. destruct H as (p & [= <-] & Hp). exact Hp.
      - change (last ((t0, v0) :: e :: l)) with (last (e :: l)).
        destruct (last (e :: l)) eqn:El; [exact H|].
        apply last_None in El. discriminate El. }
    cbn [app distinctFrom]. destruct previous as [p|].
    + destruct (sameValueZero p v0); [apply IH|].
      destruct (last _); [exact Hemit|contradiction].
    + destruct (last _); [exact Hemit|contradiction].
Qed.

(** X23.  The search box emits a query 300 ms after it was typed, and
    only queries that were typed; it never emits the same query twice in
    a row; and the query emitted last is the one typed last. *)
Theorem search_emits_the_settled_query
    (timerFirst : Z -> bool)
    (valueChanges : timed value) (t : Z) (v : value) :
  last valueChanges = Some (t, v) ->
  noRepeat (emissions (searchChanged timerFirst valueChanges)) /\
  (forall e, In e (searchChanged timerFirst valueChanges) ->
     In (fst e - 300, snd e) valueChanges) /\
  exists e, last (searchChanged timerFirst valueChanges) = Some e /\
            sameValueZero (snd e) v = true.
Proof.
  intros Hlast. unfold searchChanged, distinctUntilChanged, debounceTime.
  split; [exact (distinctFrom_noRepeat None _)|]. split.
  - intros e He. apply distinctFrom_In in He.
    apply debounceFrom_origin in He.
    destruct He as [He|(t' & Hin & Ht)]; [discriminate|].
    replace (fst e - 300) with t' by lia. exact Hin.
  - pose proof Hlast as Hsplit. apply last_Some in Hsplit.
    destruct Hsplit as [earlier ->].
    pose proof (debounceFrom_last timerFirst 300 earlier None t v) as Hd.
    apply last_Some in Hd. destruct Hd as [queued Hd]. rewrite Hd.
    pose proof (distinctFrom_last None queued (t + 300) v) as H.
    clear Hlast.
    destruct (last (distinctFrom None (queued ++ [(t + 300, v)]))) as [e|];
      [exists e; split; [reflexivity|exact H]|].
    destruct H as (p & Hp & _). discriminate Hp.
Qed.

Lemma search_emits_the_settled_query_witness :
  exists e,
    last (searchChanged (fun _ => true)
            [(0, VStr "a"); (100, VStr "ab"); (900, VStr "ab")])
    = Some e /\
    sameValueZero (snd e) (VStr "ab") = true.
Proof.
  destruct (search_emits_the_settled_query (fun _ => true)
              [(0, VStr "a"); (100, VStr "ab"); (900, VStr "ab")]
              900 (VStr "ab") eq_refl) as (_ & _ & H).
  exact H.
Defined.

(** ** Rows keep their place *)

Section Positions.
Import JsMap JsMapFacts.

Lemma keyed_lookup_get (d : list (value * row)) (i : nat) (k : value) (r : row) :
  keyed d -> d !! i = Some (k, r) -> get k d = Some r.
Proof.
  revert i. induction d as [|[k0 r0] d IH]; intros i Hd Hi; [discriminate|].
  destruct Hd as (_ & Hfresh & Hd). destruct i as [|i]; simpl in *.
  - injection Hi as -> ->. rewrite sameValueZero_refl. reflexivity.
  - assert (Hin : In (k, r) d).
    { apply list_elem_of_In. eapply list_elem_of_lookup_2. exact Hi. }
    rewrite sameValueZero_sym, (get_None_In _ _ _ _ Hfresh Hin).
    apply (IH i Hd Hi).
Qed.

Lemma set_lookup (d : list (value * row)) (i : nat) (k k' : value) (r w : row) :
  keyed d -> d !! i = Some (k, r) ->
  set k' w d !! i = Some (k, if sameValueZero k k' then w else r).
Proof.
  revert i. induction d as [|[k0 r0] d IH]; intros i Hd Hi; [discriminate|].
  destruct Hd as (_ & Hfresh & Hd). destruct i as [|i]; simpl in *.
  - injection Hi as -> ->. destruct (sameValueZero k k'); reflexivity.
  - destruct (sameValueZero k0 k') eqn:E; simpl.
    + assert (Hin : In (k, r) d).
      { apply list_elem_of_In. eapply list_elem_of_lookup_2. exact Hi. }
      pose proof (get_None_In _ _ _ _ Hfresh Hin) as Hne.
      rewrite <- (sameValueZero_congr_r _ _ k E), Hne. exact Hi.
    + apply (IH i Hd Hi).
Qed.

Lemma applyStep_lookup (d : list (value * row)) (u : row) (i : nat) (k : value) (r : row) :
  keyed d -> d !! i = Some (k, r) ->
  applyStep d u !! i = Some (k, if idIs k u then spread r u else r).
Proof.
  intros Hd Hi. unfold applyStep, idIs.
  destruct (sameValueZero (msgId u) k) eqn:E.
  - rewrite (get_congr _ _ d E), (keyed_lookup_get d i k r Hd Hi).
    rewrite (set_lookup d i k (msgId u) r _ Hd Hi).
    rewrite sameValueZero_sym, E. reflexivity.
  - destruct (get (msgId u) d);
      rewrite (set_lookup d i k (msgId u) r _ Hd Hi);
      rewrite sameValueZero_sym, E; reflexivity.
Qed.

Lemma fold_applyStep_lookup (us : list row) (d : list (value * row)) (i : nat)
    (k : value) (r : row) :
  keyed d -> d !! i = Some (k, r) ->
  fold_left applyStep us d !! i
  = Some (k, fold_left spread (List.filter (idIs k) us) r).
Proof.
  revert d r. induction us as [|u us IH]; intros d r Hd Hi; simpl; [exact Hi|].
  rewrite (IH (applyStep d u) (if idIs k u then spread r u else r)).
  - destruct (idIs k u); reflexivity.
  - apply keyed_applyStep, Hd.
  - apply applyStep_lookup; assumption.
Qed.

Lemma keyed_lookup_id (d : list (value * row)) (i : nat) (k : value) (r : row) :
  keyed d -> d !! i = Some (k, r) -> sameValueZero k (msgId r) = true.
Proof.
  intros Hd Hi. apply (keyed_get k r d Hd), (keyed_lookup_get d i k r Hd Hi).
Qed.

End Positions.

(** X24.  A flush keeps every row of the table at its place: the row at
    an index of the table (as re-indexed by identifier) is, after the
    flush, at the same index, with the updates for its identifier laid
    over it in order; rows are only ever added after them. *)
Theorem rows_keep_their_place
    (currentData updates : list row) (i : nat) (r : row) :
  applyUpdatesToData currentData [] !! i = Some r ->
  applyUpdatesToData currentData updates !! i
  = Some (fold_left spread (List.filter (idIs (msgId r)) updates) r).
Proof.
  unfold applyUpdatesToData, applyMap, JsMap.values. simpl.
  rewrite !list_lookup_fmap. intros Hr.
  assert (Hi : exists k, (tableMap currentData : list (value * row)) !! i
                         = Some (k, r)).
  { destruct ((tableMap currentData : list (value * row)) !! i) as [[k r']|];
      simpl in Hr; [|discriminate Hr].
    injection Hr as ->. exists k. reflexivity. }
  destruct Hi as [k Hi].
  pose proof (fold_applyStep_lookup updates _ i k r
                (keyed_tableMap currentData) Hi) as Hafter.
  etrans; [exact (f_equal (fmap snd) Hafter)|].
  simpl. do 2 f_equal.
  apply List.filter_ext. intros u. unfold idIs.
  apply sameValueZero_congr_r.
  exact (keyed_lookup_id _ i k r (keyed_tableMap currentData) Hi).
Qed.

Lemma rows_keep_their_place_witness :
  applyUpdatesToData [price10; resident2] [remove2; price12; update2] !! 1%nat
  = Some (fold_left spread
            (List.filter (idIs (msgId resident2)) [remove2; price12; update2])
            resident2).
Proof.
  apply (rows_keep_their_place [price10; resident2] [remove2; price12; update2]
           1 resident2).
  reflexivity.
Defined.

(** X25.  After a flush with the grid ready, on a batch whose messages
    all carry an identifier, the table has a row for every key of the
    batch, and that row shows every property of the last message for the
    key with the value the message gave it. *)
Theorem flush_shows_the_last_message
    (clock : nat -> Qc) (this : Component) (batch : list row)
    (k : value) (lastMsg : row) :
  no_grid (gridApi this) = false ->
  Forall identified batch ->
  last (List.filter (idIs k) batch) = Some lastMsg ->
  exists this' calls shown,
    processBatchUpdates clock this batch = Returned this' calls /\
    In shown (rowData this') /\
    (forall p v, lastMsg !! p = Some v -> shown !! p = Some v).
Proof.
  intros Hgrid Hid Hlast.
  exists (mkComponent (gridApi this)
            (applyUpdatesToData (rowData this) (mergeUpdates clock batch))).
  eexists.
  exists (overlay (JsMap.get k (tableMap (rowData this))) lastMsg).
  split; [apply processBatchUpdates_ready, Hgrid|]. split.
  - simpl. unfold applyUpdatesToData.
    apply (JsMapFacts.get_Some_In k). unfold applyMap.
    rewrite get_fold_applyStep, (mergeUpdates_last_per_key clock k batch Hid), Hlast.
    reflexivity.
  - intros p v Hp.
    destruct (JsMap.get k (tableMap (rowData this))) as [e|]; simpl.
    + rewrite spread_lookup, Hp. reflexivity.
    + exact Hp.
Qed.

Lemma flush_shows_the_last_message_witness :
  exists this' calls shown,
    processBatchUpdates sampleClock (gridReady [resident2]) [price10; price12]
    = Returned this' calls /\
    In shown (rowData this') /\
    (forall p v, price12 !! p = Some v -> shown !! p = Some v).
Proof.
  apply (flush_shows_the_last_message sampleClock (gridReady [resident2])
           [price10; price12] (VStr "1") price12).
  - reflexivity.
  - repeat constructor.
  - reflexivity.
Defined.

(** ** The reconciliation on the rows of the table *)

Section Rows.
Import JsMap JsMapFacts.

(** The entry of a key in the map built from the table is the last row
    of the table with that identifier. *)
Lemma get_tableMap (k : value) (currentData : list row) :
  get k (tableMap currentData) = last (List.filter (idIs k) currentData).
Proof.
  rewrite tableMap_fold, get_fold_set.
  destruct (last (List.filter (idIs k) currentData)); reflexivity.
Qed.

Lemma filter_none (k : value) (rows : list row) :
  Forall (fun r => idIs k r = false) rows -> List.filter (idIs k) rows = [].
Proof.
  induction 1 as [|r rows Hr _ IH]; simpl; [reflexivity|].
  rewrite Hr. exact IH.
Qed.

(** The rows of the returned table with a given identifier. *)
Lemma filter_applyUpdatesToData (k : value) (currentData updates : list row) :
  List.filter (idIs k) (applyUpdatesToData currentData updates)
  = match fold_left (fun o u => Some (overlay o u))
            (List.filter (idIs k) updates)
            (last (List.filter (idIs k) currentData)) with
    | Some r => [r]
    | None => []
    end.
Proof.
  unfold applyUpdatesToData.
  rewrite (filter_values_keyed k _ (keyed_applyMap currentData updates)).
  unfold applyMap. rewrite get_fold_applyStep, get_tableMap. reflexivity.
Qed.

(** Every identifier of a row of the table is the identifier of a row of
    the returned table. *)
Lemma identifiers_kept (currentData updates : list row) (r : row) :
  In r currentData ->
  exists r', In r' (applyUpdatesToData currentData updates) /\
             idIs (msgId r) r' = true.
Proof.
  intros Hr.
  pose proof (filter_applyUpdatesToData (msgId r) currentData updates) as Hf.
  destruct (last (List.filter (idIs (msgId r)) currentData)) as [e|] eqn:El.
  - rewrite fold_overlay_Some in Hf.
    exists (fold_left spread (List.filter (idIs (msgId r)) updates) e).
    apply filter_In. rewrite Hf. left. reflexivity.
  - apply last_None in El.
    assert (Hin : In r (List.filter (idIs (msgId r)) currentData)).
    { apply filter_In. split; [exact Hr|]. unfold idIs.
      apply sameValueZero_refl. }
    rewrite El in Hin. contradiction.
Qed.


End Rows.

(** C1 (as the code has it).  A window of identified messages holds an
    update and a removal for the same key.  With the grid not ready the
    batch is dropped: no call and the component as it was.  With the grid
    ready the code tells the two apart in no way: the merge keeps for the
    key the message that arrived last, the one grid transaction of the
    flush carries the merged messages in its update list and has no
    remove list, the new table has exactly one row with the key, which
    is that last message laid over the last row of the old table with
    the key (or the message itself when there was none), and every
    identifier of a row of the old table is the identifier of a row of
    the new table: no row is deleted. *)
Theorem update_and_removal_keep_the_last_message
    (clock : nat -> Qc) (this : Component) (batch : list row)
    (upd rem lastMsg : row) (k : value) :
  Forall identified batch ->
  In upd batch -> idIs k upd = true -> prop upd "op" = VStr "update" ->
  In rem batch -> idIs k rem = true -> prop rem "op" = VStr "remove" ->
  last (List.filter (idIs k) batch) = Some lastMsg ->
  let merged := mergeUpdates clock batch in
  let table := applyUpdatesToData (rowData this) merged in
  (no_grid (gridApi this) = true ->
   processBatchUpdates clock this batch = Returned this []) /\
  (no_grid (gridApi this) = false ->
   processBatchUpdates clock this batch
   = Returned (mkComponent (gridApi this) table)
       [ApplyTransaction (mkTransaction None (Some merged) None)]) /\
  List.filter (idIs k) merged = [lastMsg] /\
  List.filter (idIs k) table
  = [overlay (last (List.filter (idIs k) (rowData this))) lastMsg] /\
  (forall r, In r (rowData this) ->
     exists r', In r' table /\ idIs (msgId r) r' = true).
Proof.
  intros Hid _ _ _ _ _ _ Hlast merged table.
  assert (Hmerged : List.filter (idIs k) merged = [lastMsg]).
  { unfold merged. rewrite (mergeUpdates_last_per_key clock k batch Hid), Hlast.
    reflexivity. }
  split; [|split; [|split; [|split]]].
  - intros Hgrid. unfold processBatchUpdates. rewrite Hgrid. reflexivity.
  - apply processBatchUpdates_ready.
  - exact Hmerged.
  - unfold table. rewrite filter_applyUpdatesToData, Hmerged. reflexivity.
  - intros r Hr. apply identifiers_kept, Hr.
Qed.

Lemma update_and_removal_keep_the_last_message_witness :
  processBatchUpdates sampleClock (gridReady [resident2]) [update2; remove2]
  = Returned
      (mkComponent (Some sampleGrid)
         (applyUpdatesToData [resident2]
            (mergeUpdates sampleClock [update2; remove2])))
      [ApplyTransaction
         (mkTransaction None
            (Some (mergeUpdates sampleClock [update2; remove2])) None)] /\
  List.filter (idIs (VStr "2"))
    (applyUpdatesToData [resident2] (mergeUpdates sampleClock [update2; remove2]))
  = [spread resident2 remove2].
Proof.
  pose proof (update_and_removal_keep_the_last_message sampleClock
    (gridReady [resident2]) [update2; remove2] update2 remove2 remove2 (VStr "2"))
    as H.
  destruct H as (_ & H2 & _ & H4 & _).
  - repeat constructor.
  - left; reflexivity.
  - reflexivity.
  - reflexivity.
  - right; left; reflexivity.
  - reflexivity.
  - reflexivity.
  - reflexivity.
  - split; [exact (H2 eq_refl)|exact H4].
Defined.

(** C1 (as stated) fails on Scenario B: with a row for key '2' in the
    table and the grid ready, pushing the update and then the removal
    does not delete the row, and nothing is handed to the grid for
    removal. *)
Lemma removal_wins_counterexample :
  ~ (forall this' calls,
       processBatchUpdates sampleClock (gridReady [resident2]) [update2; remove2]
       = Returned this' calls ->
       JsMap.has (VStr "2") (tableMap (rowData this')) = false /\
       removedRows calls <> []).
Proof.
  intros H.
  destruct (H _ _ (processBatchUpdates_ready sampleClock (gridReady [resident2])
                     [update2; remove2] eq_refl)) as [Hdel _].
  vm_compute in Hdel. discriminate Hdel.
Qed.

(** C2 (as the code has it).  A window of messages that share one truthy
    identifier ([id], or [key] when [id] is falsy) merges to its last
    message alone; when no row of the table has that identifier the
    returned table is the table, rows of equal identifier folded into
    one, followed by exactly one new row, that message; for a table
    with pairwise distinct identifiers it is the table itself followed by
    that message. *)
Theorem mergeUpdates_same_id_keeps_last
    (clock : nat -> Qc) (earlier : list row) (lastMsg : row) (k : value) :
  truthy k = true ->
  Forall (fun u => idIs k u = true) (earlier ++ [lastMsg]) ->
  mergeUpdates clock (earlier ++ [lastMsg]) = [lastMsg] /\
  forall currentData,
    Forall (fun r => idIs k r = false) currentData ->
    applyUpdatesToData currentData (mergeUpdates clock (earlier ++ [lastMsg]))
    = applyUpdatesToData currentData [] ++ [lastMsg] /\
    (distinctIds currentData ->
     applyUpdatesToData currentData (mergeUpdates clock (earlier ++ [lastMsg]))
     = currentData ++ [lastMsg]).
Proof.
  intros Hk Hall.
  pose proof (mergeUpdates_one_key clock k earlier lastMsg Hk Hall) as Hm.
  split; [exact Hm|].
  intros currentData Habsent. rewrite Hm.
  assert (Hlast : sameValueZero (msgId lastMsg) k = true).
  { apply Forall_app in Hall. destruct Hall as [_ Hl].
    inversion Hl; subst. assumption. }
  assert (Hnone : JsMap.get (msgId lastMsg) (tableMap currentData) = None).
  { rewrite (JsMapFacts.get_congr _ _ _ Hlast), get_tableMap.
    rewrite (filter_none k currentData Habsent). reflexivity. }
  assert (Happend : applyUpdatesToData currentData [lastMsg]
                    = applyUpdatesToData currentData [] ++ [lastMsg]).
  { unfold applyUpdatesToData, applyMap. simpl fold_left. unfold applyStep.
    rewrite Hnone, (JsMapFacts.set_fresh _ _ _ Hnone).
    unfold JsMap.values. rewrite map_app. reflexivity. }
  split; [exact Happend|].
  intros Hd. rewrite Happend. f_equal.
  unfold applyUpdatesToData, applyMap. simpl.
  rewrite (tableMap_distinct currentData Hd).
  unfold JsMap.values. rewrite map_map. simpl. apply map_id.
Qed.

Lemma mergeUpdates_same_id_keeps_last_witness :
  mergeUpdates sampleClock [price10; price12] = [price12] /\
  applyUpdatesToData [resident2] (mergeUpdates sampleClock [price10; price12])
  = [resident2; price12].
Proof.
  destruct (mergeUpdates_same_id_keeps_last sampleClock [price10] price12 (VStr "1"))
    as [H1 H2].
  - reflexivity.
  - repeat constructor.
  - split; [exact H1|].
    destruct (H2 [resident2]) as [_ H3]; [repeat constructor|].
    apply H3. repeat constructor.
Defined.

(** Scenario A on an empty table: exactly the one row. *)
Example scenario_A :
  applyUpdatesToData [] (mergeUpdates sampleClock [price10; price12]) = [price12].
Proof. reflexivity. Qed.

(** C2 (as stated) fails for a key that is falsy: two messages for the
    number key 0 are both kept by the merge, and the row they produce is
    not the last message (it keeps [qty] of the first). *)
Lemma same_key_last_only_counterexample :
  ~ (mergeUpdates sampleClock [zero10; zero12] = [zero12]) /\
  ~ (applyUpdatesToData [] (mergeUpdates sampleClock [zero10; zero12]) = [zero12]).
Proof.
  split; intros H.
  - apply (f_equal (@length row)) in H. vm_compute in H. discriminate H.
  - apply (f_equal (fun l => match l with r :: _ => r !! "qty" | [] => None end)) in H.
    vm_compute in H. discriminate H.
Qed.


(** X7.  A flush never takes an identifier out of the table: every row
    of the given table has a row with its identifier in the returned
    table.  The returned table has at most one row more per update than
    the table had, and for a table with pairwise distinct identifiers it
    has at least as many rows as the table. *)
Theorem row_count_bounds (currentData updates : list row) :
  (forall r, In r currentData ->
     exists r', In r' (applyUpdatesToData currentData updates) /\
                idIs (msgId r) r' = true) /\
  (length (applyUpdatesToData currentData updates)
   <= length currentData + length updates)%nat /\
  (distinctIds currentData ->
   (length currentData <= length (applyUpdatesToData currentData updates))%nat).
Proof.
  split; [intros r; apply identifiers_kept|].
  assert (Hlen : (length (tableMap currentData)
                  <= length (applyMap currentData updates)
                  <= length (tableMap currentData) + length updates)%nat)
    by apply length_fold_applyStep.
  pose proof (length_tableMap currentData) as Hfold.
  unfold applyUpdatesToData, JsMap.values. rewrite length_map.
  split; [lia|].
  intros Hd. rewrite (tableMap_distinct currentData Hd), length_map in Hlen. lia.
Qed.
